(** * Title / displayName synchronisation: a shallow embedding

    This development embeds the script of [src/routes/+page.svelte] (the
    JSON display-name editor) and the batching loop of
    [src/routes/api/translate/+server.ts], and states the properties of
    the title/displayName engine over that embedding.

    Conventions of the embedding.
    - A JavaScript string is a [string]: one character per code unit
      (code units below 256).  [toLowerCase] and [trim] follow ECMAScript
      on that range.
    - A parsed JSON document is a [JsonValue].  An object is the list of
      its own properties in enumeration order, the order in which
      [Object.keys], [for..in], [Object.values] and the spread operator
      visit them; a property that is assigned for the first time goes to
      the end of that list, an assignment to an existing property keeps
      its place.
    - The [displayNames] index, the [translations] record and the
      translation cache are plain objects used as dictionaries: finite
      maps ([gmap]) on their own properties.  Property names that every
      object inherits from [Object.prototype] are not modelled.
    - Functions that update the document in place are functions from the
      old document to the new one; the store model of [Module Store]
      makes object identity explicit where copying matters. *)

From Stdlib Require Import PrimFloat Ascii String.
From stdpp Require Import base strings list gmap.

#[local] Set Warnings "-register-all".

(** ** JavaScript strings *)

Module Js.

(** [String.prototype.toLowerCase] on one code unit below 256: the
    upper-case letters are A-Z and the Latin-1 block 192-222 without
    the multiplication sign 215. *)
Definition lowerChar (c : ascii) : ascii :=
  let n := nat_of_ascii c in
  if ((65 <=? n) && (n <=? 90)) || ((192 <=? n) && (n <=? 222) && negb (n =? 215))
  then ascii_of_nat (n + 32) else c.

Fixpoint toLowerCase (s : string) : string :=
  match s with
  | EmptyString => EmptyString
  | String c r => String (lowerChar c) (toLowerCase r)
  end.

(** White space and line terminators stripped by
    [String.prototype.trim]: TAB, LF, VT, FF, CR, SP and NBSP. *)
Definition isWhiteSpace (c : ascii) : bool :=
  let n := nat_of_ascii c in
  ((9 <=? n) && (n <=? 13)) || (n =? 32) || (n =? 160).

Fixpoint trimStart (s : string) : string :=
  match s with
  | EmptyString => EmptyString
  | String c r => if isWhiteSpace c then trimStart r else s
  end.

Fixpoint trimEnd (s : string) : string :=
  match s with
  | EmptyString => EmptyString
  | String c r =>
      match trimEnd r with
      | EmptyString => if isWhiteSpace c then EmptyString else String c EmptyString
      | r' => String c r'
      end
  end.

Definition trim (s : string) : string := trimEnd (trimStart s).

(** [a.join(sep)] on an array of strings. *)
Fixpoint join (sep : string) (a : list string) : string :=
  match a with
  | [] => EmptyString
  | [x] => x
  | x :: rest => x +:+ sep +:+ join sep rest
  end.

(** [s.split('||')]: [cur] is the piece being read. *)
Fixpoint splitBars (cur : string) (s : string) : list string :=
  match s with
  | EmptyString => [cur]
  | String c r =>
      match r with
      | String c' r' =>
          if Ascii.eqb c "|" && Ascii.eqb c' "|"
          then cur :: splitBars EmptyString r'
          else splitBars (cur +:+ String c EmptyString) r
      | EmptyString => [cur +:+ String c EmptyString]
      end
  end.

(** [s.split(',')]: [cur] is the piece being read. *)
Fixpoint splitCommas (cur : string) (s : string) : list string :=
  match s with
  | EmptyString => [cur]
  | String c r =>
      if Ascii.eqb c ","
      then cur :: splitCommas EmptyString r
      else splitCommas (cur +:+ String c EmptyString) r
  end.

(** *** Objects as ordered property lists

    [Props V] is an object whose property values have type [V]: the
    document model instantiates it with [JsonValue], the store model with
    store values. *)

Abbreviation Props V := (list (string * V)).

(** [Object.keys(obj)]. *)
Definition keys {V} (obj : Props V) : list string := map fst obj.

(** [obj[k]]; [None] stands for [undefined]. *)
Fixpoint get {V} (k : string) (obj : Props V) : option V :=
  match obj with
  | [] => None
  | (k', v) :: rest => if String.eqb k' k then Some v else get k rest
  end.

(** [obj[k] = v]: overwrite in place, or append a new property. *)
Fixpoint set {V} (k : string) (v : V) (obj : Props V) : Props V :=
  match obj with
  | [] => [(k, v)]
  | (k', v') :: rest =>
      if String.eqb k' k then (k', v) :: rest else (k', v') :: set k v rest
  end.

(** [delete obj[k]]. *)
Definition remove {V} (k : string) (obj : Props V) : Props V :=
  List.filter (fun kv => negb (String.eqb kv.1 k)) obj.

(** [for (const key of ks) obj[key] = body(key, obj[key])], the shape of
    the loops that walk the properties of an object while updating
    them; a key that is no longer a property of [obj] is passed over. *)
Definition forKeys {V} (body : string -> V -> V) (ks : list string)
    (obj : Props V) : Props V :=
  fold_left
    (fun obj key =>
       match get key obj with
       | Some v => set key (body key v) obj
       | None => obj
       end)
    ks obj.

(** [for (const key in obj) obj[key] = body(obj[key])] where [body] also
    reads and writes a state [S]; the keys are those of [obj] when the
    loop starts. *)
Definition forIn {V S} (body : V -> S -> V * S) (obj : Props V) (s : S)
    : Props V * S :=
  fold_left
    (fun st key =>
       let '(obj, s) := st in
       match get key obj with
       | Some v => let '(v', s') := body v s in (set key v' obj, s')
       | None => (obj, s)
       end)
    (keys obj) (obj, s).

(** [a.map(f)] where [f] reads and writes a state [S], left to right. *)
Fixpoint mapAccum {A B S} (f : A -> S -> B * S) (a : list A) (s : S)
    : list B * S :=
  match a with
  | [] => ([], s)
  | x :: rest =>
      let '(y, s) := f x s in
      let '(ys, s) := mapAccum f rest s in
      (y :: ys, s)
  end.

(** What the node rules need of a property value: whether it is a string
    ([typeof v === 'string'], with the string), and string values. *)
Class Value (V : Type) : Type :=
  { stringOf : V -> option string;
    ofString : string -> V }.

(** [key && typeof obj[key] === 'string'], with the string when it holds;
    [key] is the result of an [Array.prototype.find]. *)
Definition stringAt {V} `{Value V} (key : option string) (obj : Props V)
    : option string :=
  match key with
  | Some key =>
      match get key obj with
      | Some v => stringOf v
      | None => None
      end
  | None => None
  end.

(** [k.toLowerCase() === 'title'] and [k.toLowerCase() === 'displayname']. *)
Definition isTitleKey (k : string) : bool :=
  String.eqb (toLowerCase k) "title".
Definition isDisplayNameKey (k : string) : bool :=
  String.eqb (toLowerCase k) "displayname".

End Js.

Import Js.

(** ** JSON values *)

Module Json.

Unset Elimination Schemes.

(** [JsonValue] of the page script: primitives, arrays and objects. *)
Inductive JsonValue : Type :=
| JNull
| JBool (b : bool)
| JNumber (x : float)
| JString (s : string)
| JArray (items : list JsonValue)
| JObject (props : list (string * JsonValue)).

Set Elimination Schemes.

#[export] Instance JsonValue_Value : Value JsonValue :=
  {| stringOf v := match v with JString s => Some s | _ => None end;
     ofString := JString |}.

(** [typeof v === 'object'] (true for [null], arrays and objects). *)
Definition typeofObject (v : JsonValue) : bool :=
  match v with
  | JNull | JArray _ | JObject _ => true
  | _ => false
  end.

(** JavaScript truthiness of a JSON value, as tested by [if (parsedJson)]. *)
Definition truthy (v : JsonValue) : bool :=
  match v with
  | JNull => false
  | JBool b => b
  | JNumber x => negb (PrimFloat.eqb x 0%float)
  | JString s => negb (String.eqb s "")
  | JArray _ | JObject _ => true
  end.

(** Nesting depth: 0 for a primitive, one more than the deepest child
    for a container. *)
Fixpoint depth (v : JsonValue) : nat :=
  match v with
  | JArray items => S (foldr (fun x d => Nat.max (depth x) d) 0 items)
  | JObject props => S (foldr (fun kv d => Nat.max (depth kv.2) d) 0 props)
  | _ => 0
  end.

(** Well-formed documents: the property names of every object are
    pairwise distinct, as in every JavaScript object. *)
Fixpoint wf (v : JsonValue) : bool :=
  match v with
  | JArray items => forallb wf items
  | JObject props =>
      bool_decide (NoDup (keys props)) && forallb (fun kv => wf kv.2) props
  | _ => true
  end.

(** The object nodes of a document in depth-first pre-order. *)
Fixpoint nodes (v : JsonValue) : list (Props JsonValue) :=
  match v with
  | JArray items => flat_map nodes items
  | JObject props => props :: flat_map (fun kv => nodes kv.2) props
  | _ => []
  end.

(** The title of an object node: the string value of its first property
    whose name matches [title]; likewise its display name. *)
Definition titleOf (obj : Props JsonValue) : option string :=
  stringAt (find isTitleKey (keys obj)) obj.
Definition displayNameOf (obj : Props JsonValue) : option string :=
  stringAt (find isDisplayNameKey (keys obj)) obj.

End Json.

Import Json.

(** ** The page script, [src/routes/+page.svelte] *)

Module Page.

(** [type DisplayName = { title: string; displayName: string }]. *)
Record DisplayName : Type := mkDisplayName
  { title : string; displayName : string }.

(** [extractDisplayNames(value)], lines 146-169.  The global
    [displayNames] object it assigns into is passed in and returned. *)
Fixpoint extractDisplayNames (value : JsonValue)
    (displayNames : gmap string DisplayName) : gmap string DisplayName :=
  match value with
  | JArray items =>
      fold_left (fun dn item => extractDisplayNames item dn) items displayNames
  | JObject obj =>
      let titleKey := find isTitleKey (keys obj) in
      let displayNameKey := find isDisplayNameKey (keys obj) in
      let displayNames :=
        match titleKey, displayNameKey with
        | Some titleKey, Some displayNameKey =>
            match get titleKey obj, get displayNameKey obj with
            | Some (JString title), Some (JString d) =>
                <[title := mkDisplayName title d]> displayNames
            | _, _ => displayNames
            end
        | _, _ => displayNames
        end in
      fold_left (fun dn kv => extractDisplayNames kv.2 dn) obj displayNames
  | _ => displayNames
  end.

(** [titles.add(t)] on the insertion-ordered [Set] of [extractTitles]. *)
Definition addTitle (t : string) (titles : list string) : list string :=
  if bool_decide (t ∈ titles) then titles else titles ++ [t].

(** [traverse] of [extractTitles], lines 39-49. *)
Fixpoint collectTitles (value : JsonValue) (titles : list string) : list string :=
  match value with
  | JArray items => fold_left (fun acc item => collectTitles item acc) items titles
  | JObject obj =>
      let titles :=
        match find isTitleKey (keys obj) with
        | Some titleKey =>
            match get titleKey obj with
            | Some (JString t) => addTitle t titles
            | _ => titles
            end
        | None => titles
        end in
      fold_left (fun acc kv => collectTitles kv.2 acc) obj titles
  | _ => titles
  end.

(** [extractTitles(obj)], lines 36-53. *)
Definition extractTitles (obj : JsonValue) : list string := collectTitles obj [].

(** [obj[key] === oldValue] for a string [oldValue]. *)
Definition strictEq (v : JsonValue) (s : string) : bool :=
  match v with
  | JString s' => String.eqb s' s
  | _ => false
  end.

(** [updateJson(obj)] inside [updateDisplayName], lines 187-201.  The
    recursion follows the document after its properties were
    reassigned, so it is written over a bound [fuel] on the nesting
    depth; [updateJson] supplies a sufficient bound. *)
Fixpoint updateJsonFuel (fuel : nat) (oldValue newValue : string)
    (obj : JsonValue) : JsonValue :=
  match fuel with
  | 0 => obj
  | S fuel =>
      match obj with
      | JArray items => JArray (map (updateJsonFuel fuel oldValue newValue) items)
      | JObject props =>
          JObject
            (forKeys
               (fun key v =>
                  if isDisplayNameKey key && strictEq v oldValue
                  then JString newValue
                  else if typeofObject v
                       then updateJsonFuel fuel oldValue newValue v
                       else v)
               (keys props) props)
      | _ => obj
      end
  end.

Definition updateJson (oldValue newValue : string) (obj : JsonValue) : JsonValue :=
  updateJsonFuel (S (depth obj)) oldValue newValue obj.

(** The statements of [traverse] on one object before it visits the
    children, lines 114-130 of [updateJsonWithTranslations]. *)
Definition mergeNode (translations : gmap string string)
    (obj : Props JsonValue) : Props JsonValue :=
  let keys := keys obj in
  let titleKey := find isTitleKey keys in
  let displayNameKey := find isDisplayNameKey keys in
  match stringAt titleKey obj with
  | Some title =>
      match translations !! title with
      | Some translated =>
          let obj :=
            fold_left
              (fun obj k => if isDisplayNameKey k then remove k obj else obj)
              keys obj in
          set "displayName" (JString (trim translated)) obj
      | None => obj
      end
  | None =>
      match displayNameKey, stringAt displayNameKey obj with
      | Some displayNameKey, Some d =>
          set displayNameKey (JString (trim d)) obj
      | _, _ => obj
      end
  end.

(** [traverse(obj)] of [updateJsonWithTranslations], lines 112-137. *)
Fixpoint traverseFuel (fuel : nat) (translations : gmap string string)
    (obj : JsonValue) : JsonValue :=
  match fuel with
  | 0 => obj
  | S fuel =>
      match obj with
      | JArray items => JArray (map (traverseFuel fuel translations) items)
      | JObject props =>
          let keys := keys props in
          let props := mergeNode translations props in
          JObject
            (forKeys
               (fun _ v =>
                  if typeofObject v then traverseFuel fuel translations v else v)
               keys props)
      | _ => obj
      end
  end.

Definition traverse (translations : gmap string string) (obj : JsonValue)
    : JsonValue :=
  traverseFuel (S (depth obj)) translations obj.

(** The statements of [addMissingDisplayNames] on the copy [obj] of one
    object before it visits the properties, lines 343-360. *)
Definition fillNode {V} `{Value V} (obj : Props V)
    (displayNames : gmap string DisplayName)
    : Props V * gmap string DisplayName :=
  let titleKey := find isTitleKey (keys obj) in
  let displayNameKey := find isDisplayNameKey (keys obj) in
  match titleKey, displayNameKey with
  | Some _, None =>
      match stringAt titleKey obj with
      | Some t =>
          let title := trim t in
          match displayNames !! title with
          | Some entry =>
              (set "displayName" (ofString (trim (displayName entry))) obj,
               displayNames)
          | None =>
              (set "displayName" (ofString title) obj,
               <[title := mkDisplayName title title]> displayNames)
          end
      | None => (obj, displayNames)
      end
  | _, Some key =>
      match stringAt displayNameKey obj with
      | Some d => (set key (ofString (trim d)) obj, displayNames)
      | None => (obj, displayNames)
      end
  | None, None => (obj, displayNames)
  end.

(** [addMissingDisplayNames(value)], lines 338-369, on documents. *)
Fixpoint addMissingFuel (fuel : nat) (value : JsonValue)
    (displayNames : gmap string DisplayName)
    : JsonValue * gmap string DisplayName :=
  match fuel with
  | 0 => (value, displayNames)
  | S fuel =>
      match value with
      | JArray items =>
          let '(items, displayNames) :=
            mapAccum (addMissingFuel fuel) items displayNames in
          (JArray items, displayNames)
      | JObject props =>
          let '(obj, displayNames) := fillNode props displayNames in
          let '(obj, displayNames) :=
            forIn (addMissingFuel fuel) obj displayNames in
          (JObject obj, displayNames)
      | _ => (value, displayNames)
      end
  end.

Definition addMissingDisplayNames (value : JsonValue)
    (displayNames : gmap string DisplayName)
    : JsonValue * gmap string DisplayName :=
  addMissingFuel (S (depth value)) value displayNames.

(** *** The reactive state and the handlers

    [jsonEditor] and the other DOM nodes are left out.  [parsedJson]
    starts as [null], which is also the document [null]. *)

Record State : Type := mkState
  { jsonInput : string;
    parsedJson : JsonValue;
    displayNames : gmap string DisplayName;
    selectedTitle : option string;
    selectedLanguage : string }.

Definition withJsonInput (x : string) (s : State) : State :=
  mkState x (parsedJson s) (displayNames s) (selectedTitle s) (selectedLanguage s).
Definition withParsedJson (x : JsonValue) (s : State) : State :=
  mkState (jsonInput s) x (displayNames s) (selectedTitle s) (selectedLanguage s).
Definition withDisplayNames (x : gmap string DisplayName) (s : State) : State :=
  mkState (jsonInput s) (parsedJson s) x (selectedTitle s) (selectedLanguage s).

Section Handlers.

(** [JSON.parse], with [None] for a thrown [SyntaxError], and
    [JSON.stringify(v, null, 2)]. *)
Variable JSON_parse : string -> option JsonValue.
Variable JSON_stringify : JsonValue -> string.

(** [updateJsonDisplay()], lines 102-109. *)
Definition updateJsonDisplay (s : State) : State :=
  if truthy (parsedJson s) && typeofObject (parsedJson s)
  then withJsonInput (JSON_stringify (parsedJson s)) s
  else s.

(** [parseJson(input)], lines 208-218. *)
Definition parseJson (input : string) (s : State) : State :=
  match JSON_parse input with
  | Some parsed =>
      let s := withParsedJson parsed s in
      let s := withDisplayNames ∅ s in
      let s := withDisplayNames (extractDisplayNames parsed (displayNames s)) s in
      updateJsonDisplay s
  | None => s
  end.

(** [handleJsonInputChange(event)], lines 254-294, [newContent] being
    the text of the editor; the cursor bookkeeping is left out. *)
Definition handleJsonInputChange (newContent : string) (s : State) : State :=
  let s := withJsonInput newContent s in
  match JSON_parse (jsonInput s) with
  | Some parsed =>
      let s := withParsedJson parsed s in
      let s := withDisplayNames ∅ s in
      let s := withDisplayNames (extractDisplayNames (parsedJson s) (displayNames s)) s in
      updateJsonDisplay s
  | None => s
  end.

(** [updateDisplayName(title, newValue)], lines 181-206. *)
Definition updateDisplayName (title newValue : string) (s : State) : State :=
  match displayNames s !! title with
  | Some entry =>
      let oldValue := displayName entry in
      let s :=
        withDisplayNames
          (<[title := mkDisplayName (Page.title entry) newValue]> (displayNames s)) s in
      let s := withParsedJson (updateJson oldValue newValue (parsedJson s)) s in
      updateJsonDisplay s
  | None => s
  end.

(** [handleAddMissingDisplayNames], lines 371-379. *)
Definition handleAddMissingDisplayNames (s : State) : State :=
  if truthy (parsedJson s) then
    let '(value, dn) := addMissingDisplayNames (parsedJson s) (displayNames s) in
    let s := withDisplayNames dn (withParsedJson value s) in
    let s := withJsonInput (JSON_stringify (parsedJson s)) s in
    let s := withDisplayNames ∅ s in
    let s := withDisplayNames (extractDisplayNames (parsedJson s) (displayNames s)) s in
    updateJsonDisplay s
  else s.

(** [updateJsonWithTranslations(translations)], lines 111-144. *)
Definition updateJsonWithTranslations (translations : gmap string string)
    (s : State) : State :=
  if truthy (parsedJson s) then
    let s := withParsedJson (traverse translations (parsedJson s)) s in
    let s := withJsonInput (JSON_stringify (parsedJson s)) s in
    updateJsonDisplay s
  else s.

(** The [forEach] of lines 88-92: every entry of [translations] whose
    title is a key of the index assigns to the [displayName] of that
    key; entries with different titles do not interfere. *)
Definition patchDisplayNames (translations : gmap string string)
    (dn : gmap string DisplayName) : gmap string DisplayName :=
  map_imap
    (fun originalTitle entry =>
       match translations !! originalTitle with
       | Some translatedTitle => Some (mkDisplayName (title entry) translatedTitle)
       | None => Some entry
       end)
    dn.

(** [translateDisplayNames()], lines 55-100.  [response] is what the
    awaited [fetch] of [/api/translate] delivers: [Some translations]
    when [response.ok], the parsed body being [translations], and [None]
    otherwise. *)
Definition translateDisplayNames (response : option (gmap string string))
    (s : State) : State :=
  if String.eqb (selectedLanguage s) "" then s
  else if negb (truthy (parsedJson s) && typeofObject (parsedJson s)) then s
  else if length (extractTitles (parsedJson s)) =? 0 then s
  else
    match response with
    | Some translations =>
        let updatedDisplayNames := patchDisplayNames translations (displayNames s) in
        let s := withDisplayNames updatedDisplayNames s in
        updateJsonWithTranslations translations s
    | None => s
    end.

End Handlers.

End Page.

(** ** The second copy of the page script

    The source file carries a second, older copy of the script after the
    first one, lines 490-860.  It has no translation; its extractor,
    synchroniser and parser are those of the first copy.  Its
    [addMissingDisplayNames], lines 729-757, differs: it has no [trim]
    and no normalisation branch. *)

Module Legacy.

Import Page.

Definition fillNode {V} `{Value V} (obj : Props V)
    (displayNames : gmap string DisplayName)
    : Props V * gmap string DisplayName :=
  let titleKey := find isTitleKey (keys obj) in
  let displayNameKey := find isDisplayNameKey (keys obj) in
  match titleKey, displayNameKey with
  | Some _, None =>
      match stringAt titleKey obj with
      | Some title =>
          match displayNames !! title with
          | Some entry =>
              (set "displayName" (ofString (displayName entry)) obj,
               displayNames)
          | None =>
              (set "displayName" (ofString title) obj,
               <[title := mkDisplayName title title]> displayNames)
          end
      | None => (obj, displayNames)
      end
  | _, _ => (obj, displayNames)
  end.

Fixpoint addMissingFuel (fuel : nat) (value : JsonValue)
    (displayNames : gmap string DisplayName)
    : JsonValue * gmap string DisplayName :=
  match fuel with
  | 0 => (value, displayNames)
  | S fuel =>
      match value with
      | JArray items =>
          let '(items, displayNames) :=
            mapAccum (addMissingFuel fuel) items displayNames in
          (JArray items, displayNames)
      | JObject props =>
          let '(obj, displayNames) := fillNode props displayNames in
          let '(obj, displayNames) :=
            forIn (addMissingFuel fuel) obj displayNames in
          (JObject obj, displayNames)
      | _ => (value, displayNames)
      end
  end.

Definition addMissingDisplayNames (value : JsonValue)
    (displayNames : gmap string DisplayName)
    : JsonValue * gmap string DisplayName :=
  addMissingFuel (S (depth value)) value displayNames.

End Legacy.

(** ** Objects with identity: the store model

    Arrays and objects live in a store and are referred to by location,
    so that a write to one object is seen through every reference to
    it.  [addMissingDisplayNames] is embedded a second time over this
    model. *)

Module Store.

Import Page.

Inductive Val : Type :=
| VNull
| VBool (b : bool)
| VNumber (x : float)
| VString (s : string)
| VRef (l : nat).

Inductive Cell : Type :=
| CArray (items : list Val)
| CObject (props : list (string * Val)).

#[export] Instance Val_Value : Value Val :=
  {| stringOf v := match v with VString s => Some s | _ => None end;
     ofString := VString |}.

(** The store is an arena: a location is an index, allocation appends. *)
Abbreviation Heap := (list Cell).

Definition alloc (c : Cell) (h : Heap) : nat * Heap := (length h, h ++ [c]).

Fixpoint foldM {A S} (f : A -> S -> option S) (l : list A) (s : S) : option S :=
  match l with
  | [] => Some s
  | x :: rest =>
      match f x s with
      | Some s => foldM f rest s
      | None => None
      end
  end.

(** The callbacks of [value.map(...)], left to right. *)
Fixpoint mapItems
    (visit : Val -> Heap -> gmap string DisplayName ->
             option (Val * Heap * gmap string DisplayName))
    (items : list Val) (h : Heap) (dn : gmap string DisplayName)
    : option (list Val * Heap * gmap string DisplayName) :=
  match items with
  | [] => Some ([], h, dn)
  | item :: rest =>
      match visit item h dn with
      | Some (item, h, dn) =>
          match mapItems visit rest h dn with
          | Some (rest, h, dn) => Some (item :: rest, h, dn)
          | None => None
          end
      | None => None
      end
  end.

(** One round of [for (const key in obj) obj[key] =
    addMissingDisplayNames(obj[key])] on the object at [obj]. *)
Definition visitKey
    (visit : Val -> Heap -> gmap string DisplayName ->
             option (Val * Heap * gmap string DisplayName))
    (obj : nat) (key : string) (st : Heap * gmap string DisplayName)
    : option (Heap * gmap string DisplayName) :=
  let '(h, dn) := st in
  match h !! obj with
  | Some (CObject props) =>
      match get key props with
      | Some v =>
          match visit v h dn with
          | Some (v, h, dn) =>
              match h !! obj with
              | Some (CObject props) =>
                  Some (<[obj := CObject (set key v props)]> h, dn)
              | _ => None
              end
          | None => None
          end
      | None => Some (h, dn)
      end
  | _ => None
  end.

(** [addMissingDisplayNames(value)], lines 338-369, on the store.  The
    result is [None] when [fuel] runs out or a reference dangles. *)
Fixpoint addMissingDisplayNames (fuel : nat) (value : Val) (h : Heap)
    (displayNames : gmap string DisplayName)
    : option (Val * Heap * gmap string DisplayName) :=
  match fuel with
  | 0 => None
  | S fuel =>
      match value with
      | VRef l =>
          match h !! l with
          | Some (CArray items) =>
              let '(a, h) := alloc (CArray []) h in
              match mapItems (addMissingDisplayNames fuel) items h displayNames with
              | Some (items, h, displayNames) =>
                  Some (VRef a, <[a := CArray items]> h, displayNames)
              | None => None
              end
          | Some (CObject props) =>
              let '(obj, h) := alloc (CObject props) h in
              let '(props, displayNames) := fillNode props displayNames in
              let h := <[obj := CObject props]> h in
              match
                foldM (visitKey (addMissingDisplayNames fuel) obj)
                  (keys props) (h, displayNames)
              with
              | Some (h, displayNames) => Some (VRef obj, h, displayNames)
              | None => None
              end
          | None => None
          end
      | _ => Some (value, h, displayNames)
      end
  end.

(** The document that a store value denotes. *)
Fixpoint load (fuel : nat) (h : Heap) (v : Val) {struct fuel} : option JsonValue :=
  match v with
  | VNull => Some JNull
  | VBool b => Some (JBool b)
  | VNumber x => Some (JNumber x)
  | VString s => Some (JString s)
  | VRef l =>
      match fuel with
      | 0 => None
      | S fuel =>
          match h !! l with
          | Some (CArray items) => JArray <$> mapM (load fuel h) items
          | Some (CObject props) =>
              JObject <$> mapM (fun kv => pair kv.1 <$> load fuel h kv.2) props
          | None => None
          end
      end
  end.

(** [keeps n h h']: the cells of [h] at locations from [n] on are the
    same in [h']. *)
Definition keeps (n : nat) (h h' : Heap) : Prop :=
  forall l c, n <= l -> h !! l = Some c -> h' !! l = Some c.

(** A property of the store denotes a property of a document. *)
Definition denotes (fuel : nat) (h : Heap) (kv : string * Val)
    (tkv : string * JsonValue) : Prop :=
  kv.1 = tkv.1 /\ load fuel h kv.2 = Some tkv.2.

(** A store that holds one shared child under two parents. *)
Definition sharedHeap : Heap :=
  [CObject [("title", VString "Sun "); ("first", VRef 1); ("second", VRef 1)];
   CArray [VRef 2; VNull];
   CObject [("Title", VString "Moon"); ("DisplayName", VString " x ")]].

End Store.

(** ** The translation endpoint, [src/routes/api/translate/+server.ts] *)

Module Server.

(** A value read from an array or a record that may be [undefined]. *)
Abbreviation Text := (option string).

(** [type TranslationCache]. *)
Abbreviation TranslationCache := (gmap string (gmap string Text)).

(** The variables of [translateTitles], and the batches handed to
    [translateBatch] so far, oldest first. *)
Record Loop : Type := mkLoop
  { translations : gmap string Text;
    updatedCache : TranslationCache;
    batch : list string;
    batchLength : nat;
    sent : list (list string) }.

(** How far [translateTitles] got: it returned, or a request threw after
    the listed batches had been handed over. *)
Inductive Outcome : Type :=
| Returned (st : Loop)
| Thrown (sent : list (list string)).

Definition batchesOf (o : Outcome) : list (list string) :=
  match o with
  | Returned st => sent st
  | Thrown sent => sent
  end.

Definition maxLength : nat := 500.

Section TranslateTitles.

(** [translateText(text, targetLang)]: the translated text, or [None]
    when the request throws. *)
Variable translateText : string -> string -> option string.

Variable targetLang : string.

(** The [forEach] of [translateBatch], lines 64-68. *)
Fixpoint storeTranslated (batchToTranslate : list string)
    (translatedTitles : list string) (index : nat)
    (translations : gmap string Text) (updatedCache : TranslationCache)
    : gmap string Text * TranslationCache :=
  match batchToTranslate with
  | [] => (translations, updatedCache)
  | title :: rest =>
      let translated := translatedTitles !! index in
      let translations := <[title := translated]> translations in
      let updatedCache :=
        match updatedCache !! title with
        | Some _ => updatedCache
        | None => <[title := ∅]> updatedCache
        end in
      let updatedCache :=
        <[title := <[targetLang := translated]> (default ∅ (updatedCache !! title))]>
          updatedCache in
      storeTranslated rest translatedTitles (S index) translations updatedCache
  end.

(** [translateBatch(batchToTranslate)], lines 59-69. *)
Definition translateBatch (batchToTranslate : list string) (st : Loop) : Outcome :=
  let sent := sent st ++ [batchToTranslate] in
  let batchText := join "||" batchToTranslate in
  match translateText batchText targetLang with
  | Some translatedBatch =>
      let translatedTitles := splitBars "" translatedBatch in
      let '(translations, updatedCache) :=
        storeTranslated batchToTranslate translatedTitles 0
          (translations st) (updatedCache st) in
      Returned (mkLoop translations updatedCache (batch st) (batchLength st) sent)
  | None => Thrown sent
  end.

(** [targetLang in (updatedCache[title] || {})]. *)
Definition cached (title : string) (updatedCache : TranslationCache) : bool :=
  match updatedCache !! title with
  | Some entry => bool_decide (is_Some (entry !! targetLang))
  | None => false
  end.

(** The [for (const title of titles)] loop, lines 71-85. *)
Fixpoint forTitles (titles : list string) (st : Loop) : Outcome :=
  match titles with
  | [] => Returned st
  | title :: rest =>
      if cached title (updatedCache st) then
        let translated := default ∅ (updatedCache st !! title) !!! targetLang in
        forTitles rest
          (mkLoop (<[title := translated]> (translations st)) (updatedCache st)
                  (batch st) (batchLength st) (sent st))
      else
        let flushed :=
          if (maxLength <? batchLength st + String.length title + 2)
             && (0 <? length (batch st))
          then
            match translateBatch (batch st) st with
            | Returned st =>
                Returned (mkLoop (translations st) (updatedCache st) [] 0 (sent st))
            | Thrown sent => Thrown sent
            end
          else Returned st in
        match flushed with
        | Returned st =>
            forTitles rest
              (mkLoop (translations st) (updatedCache st)
                      (batch st ++ [title])
                      (batchLength st + (String.length title + 2)) (sent st))
        | Thrown sent => Thrown sent
        end
  end.

(** [translateTitles(titles, targetLang, cache)], lines 48-92. *)
Definition translateTitles (titles : list string) (cache : TranslationCache)
    : Outcome :=
  let st := mkLoop ∅ cache [] 0 [] in
  match forTitles titles st with
  | Returned st =>
      if 0 <? length (batch st) then translateBatch (batch st) st else Returned st
  | Thrown sent => Thrown sent
  end.

End TranslateTitles.

(** [loadCache()], lines 17-25: [stored] is the cache read from the
    cache file, [None] when reading or parsing the file throws. *)
Definition loadCache (stored : option TranslationCache) : TranslationCache :=
  default ∅ stored.

(** What a handler answers: [json(translations)], with status 200, or
    [json({ error }, { status })]. *)
Inductive Response : Type :=
| Translations (body : gmap string Text)
| Error (status : nat) (error : string).

(** [GET], lines 94-112, on the [titles] and [targetLang] parameters of
    the query ([None] when the parameter is absent): the answer, and the
    cache handed to [saveCache], if any. *)
Definition GET (translateText : string -> string -> option string)
    (titlesParam targetLangParam : option string)
    (stored : option TranslationCache) : Response * option TranslationCache :=
  let titles := default [] (splitCommas "" <$> titlesParam) in
  let targetLang := default "" targetLangParam in
  if (length titles =? 0) || String.eqb targetLang "" then
    (Error 400 "Invalid input: titles and targetLang are required", None)
  else
    let cache := loadCache stored in
    match translateTitles translateText targetLang titles cache with
    | Returned st => (Translations (translations st), Some (updatedCache st))
    | Thrown _ => (Error 500 "Translation failed", None)
    end.

End Server.

(** ** The operations as the specification words them *)

Module Spec.

Import Page.

(** Extractor, section 4.2: the title and display name of an object
    node that has both as strings. *)
Definition labelOf (obj : Props JsonValue) : option (string * string) :=
  match titleOf obj, displayNameOf obj with
  | Some t, Some d => Some (t, d)
  | _, _ => None
  end.

(** The entry that such a node writes into the index. *)
Definition record (dn : gmap string DisplayName) (obj : Props JsonValue)
    : gmap string DisplayName :=
  match labelOf obj with
  | Some (t, d) => <[t := mkDisplayName t d]> dn
  | None => dn
  end.

(** The display names of the nodes labelled with title [t], in the order
    of the nodes, and the last of them. *)
Definition displayNamesFor (t : string) (objs : list (Props JsonValue))
    : list string :=
  omap
    (fun obj =>
       match labelOf obj with
       | Some (t', d) => if String.eqb t' t then Some d else None
       | None => None
       end)
    objs.

Definition lastDisplayName (t : string) (objs : list (Props JsonValue))
    : option string :=
  last (displayNamesFor t objs).

(** Synchroniser, section 4.3: in every object, every display-name
    field whose value is the string [oldValue] gets [newValue]; nothing
    else changes. *)
Fixpoint renameDisplayName (oldValue newValue : string) (v : JsonValue)
    : JsonValue :=
  match v with
  | JArray items => JArray (map (renameDisplayName oldValue newValue) items)
  | JObject props =>
      JObject
        (map
           (fun kv =>
              match kv with
              | (k, x) =>
                  (k, if isDisplayNameKey k && strictEq x oldValue
                      then JString newValue
                      else renameDisplayName oldValue newValue x)
              end)
           props)
  | _ => v
  end.

(** Gap-filler, section 4.4: an object node on which the gap-filler has
    nothing left to do.  Either it has a display-name key, and the value
    under the first such key, when it is a string, is trimmed; or it has
    no title key with a string value. *)
Definition settled (obj : Props JsonValue) : Prop :=
  match find isTitleKey (keys obj), find isDisplayNameKey (keys obj) with
  | Some titleKey, None => stringAt (Some titleKey) obj = None
  | _, Some displayNameKey =>
      forall d, stringAt (Some displayNameKey) obj = Some d -> trim d = d
  | None, None => True
  end.

(** [visitProp f] is the body of the loop over the properties of an
    object, [obj[key] = f(obj[key])], on one property. *)
Definition visitProp {S} (f : JsonValue -> S -> JsonValue * S)
    (kv : string * JsonValue) (s : S) : (string * JsonValue) * S :=
  let '(v, s) := f kv.2 s in ((kv.1, v), s).

(** Translation merge, section 4.5, as the script performs it on one
    object.  When the node has a string title that is a key of
    [translations]: every display-name property is dropped and a single
    [displayName] property with the trimmed translation is added.  When
    the node has no string title: the value under its display-name key,
    if a string, is trimmed in place.  A node with a string title that
    is not a key of [translations] is kept as it is. *)
Definition mergeProps (translations : gmap string string)
    (props : Props JsonValue) : Props JsonValue :=
  match titleOf props with
  | Some t =>
      match translations !! t with
      | Some translated =>
          List.filter (fun kv => negb (isDisplayNameKey kv.1)) props
          ++ [("displayName", JString (trim translated))]
      | None => props
      end
  | None =>
      match find isDisplayNameKey (keys props), displayNameOf props with
      | Some displayNameKey, Some d =>
          map (fun kv => if String.eqb kv.1 displayNameKey
                         then (kv.1, JString (trim d)) else kv) props
      | _, _ => props
      end
  end.




(** The properties of one object after the rename. *)
Definition renamedProps (oldValue newValue : string) (obj : Props JsonValue)
    : Props JsonValue :=
  map (fun kv =>
         (kv.1, if isDisplayNameKey kv.1 && strictEq kv.2 oldValue
                then JString newValue
                else renameDisplayName oldValue newValue kv.2)) obj.

(** The string titles of the object nodes, in pre-order. *)
Definition titlesOf (v : JsonValue) : list string := omap titleOf (nodes v).

(** [displays d v]: some display-name property in [v] holds the string [d]. *)
Fixpoint displays (d : string) (v : JsonValue) : bool :=
  match v with
  | JArray items => existsb (displays d) items
  | JObject props =>
      existsb
        (fun kv => (isDisplayNameKey kv.1 && strictEq kv.2 d) || displays d kv.2)
        props
  | _ => false
  end.

(** An index entry after the display name [oldValue] became [newValue]. *)
Definition renamedEntry (oldValue newValue : string) (e : DisplayName)
    : DisplayName :=
  mkDisplayName (title e)
    (if String.eqb (displayName e) oldValue then newValue else displayName e).

(** [holds cache title language translated]: the cache has the entry
    [cache[title][language]], and it is [translated]. *)
Definition holds (cache : Server.TranslationCache) (title language : string)
    (translated : Server.Text) : Prop :=
  exists entry, cache !! title = Some entry /\ entry !! language = Some translated.

(** What [translateTitles] maintains about the cache and the answers,
    [seen] being the titles gone through so far: the cache has only
    grown, no title that the initial cache answers is in a batch, every
    answer is the cache entry of its title, and the answered titles
    together with the pending ones are the titles seen. *)
Definition serving (targetLang : string) (cache : Server.TranslationCache)
    (seen : list string) (st : Server.Loop) : Prop :=
  (forall t l x, holds cache t l x -> holds (Server.updatedCache st) t l x)
  /\ (forall t, t ∈ Server.batch st ->
         Server.cached targetLang t cache = false /\ t ∈ seen)
  /\ Forall (fun b => forall t, t ∈ b -> Server.cached targetLang t cache = false)
       (Server.sent st)
  /\ (forall t x, Server.translations st !! t = Some x ->
         holds (Server.updatedCache st) t targetLang x)
  /\ (forall t, t ∈ seen ->
         t ∈ Server.batch st \/ is_Some (Server.translations st !! t))
  /\ (forall t, is_Some (Server.translations st !! t) -> t ∈ seen).


End Spec.

(** ** Sample documents and states *)

Module Examples.

Import Page.

(** The collision of section 8: titles [A] and [B] both display [X]. *)
Definition collisionState : State :=
  mkState ""
    (JArray [JObject [("title", JString "A"); ("displayName", JString "X")];
             JObject [("title", JString "B"); ("displayName", JString "X")]])
    {["A" := mkDisplayName "A" "X"; "B" := mkDisplayName "B" "X"]}
    None "".

(** A stand-in for [JSON.parse] that accepts the three literals only. *)
Definition parseLiteral (input : string) : option JsonValue :=
  if String.eqb input "null" then Some JNull
  else if String.eqb input "true" then Some (JBool true)
  else if String.eqb input "false" then Some (JBool false)
  else None.

(** A document with a title that lacks a display name and a nested
    display name that is not trimmed. *)
Definition sunDocument : JsonValue :=
  JObject [("title", JString "Sun ");
           ("moons", JArray [JObject [("Title", JString "Moon");
                                      ("DisplayName", JString " x ")];
                             JNull])].


(** The translation merge of section 8, with a stray-cased key. *)
Definition strayCasedHome : JsonValue :=
  JObject [("title", JString "Home"); ("DisplayName", JString "Home");
           ("displayname", JString "home");
           ("sub", JArray [JObject [("DISPLAYNAME", JString " x ")]])].

(** A document with one titled node that has no display name, ready to
    be translated to French, and an index that does not list it. *)
Definition untranslatedState : State :=
  mkState "" (JObject [("title", JString "Home")]) ∅ None "fr".

(** A document and its index, ready to be translated to French. *)
Definition homeState : State :=
  mkState ""
    (JObject [("title", JString "Home"); ("displayName", JString "Home")])
    {["Home" := mkDisplayName "Home" "Home"]} None "fr".



(** A translation service that answers with the text it was given. *)
Definition echo (text targetLang : string) : option string := Some text.

(** A title that occurs in two nodes, the second with other key casing. *)
Definition repeatedTitle : JsonValue :=
  JArray [JObject [("title", JString "A"); ("displayName", JString "X");
                   ("items", JArray [JObject [("Title", JString "A");
                                              ("DisplayName", JString "Z")]])];
          JObject [("title", JString "B"); ("displayName", JString "X")]].

End Examples.

(** * Properties *)

(** ** Strings *)

Module JsFacts.

Lemma trimStart_head (s : string) :
  match trimStart s with
  | EmptyString => True
  | String c _ => isWhiteSpace c = false
  end.
Proof.
  induction s as [|c r IH]; simpl; [done|].
  destruct (isWhiteSpace c) eqn:E; [done|]. exact E.
Qed.

Lemma trimStart_fixed (c : ascii) (r : string) :
  isWhiteSpace c = false -> trimStart (String c r) = String c r.
Proof. intros E. simpl. by rewrite E. Qed.

Lemma trimEnd_head (c : ascii) (r : string) :
  isWhiteSpace c = false -> exists r', trimEnd (String c r) = String c r'.
Proof.
  intros E. simpl. destruct (trimEnd r); rewrite ?E; eauto.
Qed.

Lemma trimEnd_idemp (s : string) : trimEnd (trimEnd s) = trimEnd s.
Proof.
  induction s as [|c r IH]; simpl; [done|].
  destruct (trimEnd r) as [|c' r'] eqn:E.
  - destruct (isWhiteSpace c) eqn:Ec; simpl; [done|]. by rewrite Ec.
  - simpl in *. by rewrite IH.
Qed.

Lemma trim_idemp (s : string) : trim (trim s) = trim s.
Proof.
  unfold trim. pose proof (trimStart_head s) as H.
  destruct (trimStart s) as [|c r]; [done|].
  destruct (trimEnd_head c r H) as [r' E]. rewrite E.
  rewrite trimStart_fixed by done. rewrite <- E. apply trimEnd_idemp.
Qed.



Lemma map_fixed {A} (f : A -> A) (l : list A) :
  (forall x, x ∈ l -> f x = x) -> map f l = l.
Proof.
  induction l as [|x r IH]; intros H; simpl; [done|].
  rewrite H by left. f_equal. apply IH. intros y Hy. apply H. by right.
Qed.

Section Props.

Context {V : Type}.
Implicit Types (obj : Props V) (k : string) (v : V).

Lemma get_None obj k : get k obj = None <-> k ∉ keys obj.
Proof.
  induction obj as [|[k' v'] r IH]; simpl.
  - split; [intros _; apply not_elem_of_nil|done].
  - rewrite not_elem_of_cons. destruct (String.eqb_spec k' k) as [->|Hne].
    + split; [done|]. intros [? _]. done.
    + rewrite IH. intuition congruence.
Qed.

Lemma get_Some_elem obj k v : get k obj = Some v -> (k, v) ∈ obj.
Proof.
  induction obj as [|[k' v'] r IH]; simpl; [done|].
  destruct (String.eqb_spec k' k) as [->|Hne].
  - intros [= ->]. left.
  - intros H. right. auto.
Qed.

Lemma get_Some_key obj k v : get k obj = Some v -> k ∈ keys obj.
Proof.
  intros H. apply get_Some_elem in H.
  unfold keys. apply list_elem_of_fmap. by exists (k, v).
Qed.

Lemma elem_get obj k v : NoDup (keys obj) -> (k, v) ∈ obj -> get k obj = Some v.
Proof.
  induction obj as [|[k' v'] r IH]; simpl.
  - intros _ H. by apply elem_of_nil in H.
  - intros Hnd H. apply NoDup_cons in Hnd as [Hk Hnd].
    apply elem_of_cons in H as [[= -> ->]|H].
    + by rewrite String.eqb_refl.
    + destruct (String.eqb_spec k' k) as [->|Hne]; [|by apply IH].
      exfalso. apply Hk. unfold keys. apply list_elem_of_fmap. by exists (k, v).
Qed.

Lemma get_app obj1 obj2 k :
  get k (obj1 ++ obj2) =
  match get k obj1 with Some v => Some v | None => get k obj2 end.
Proof.
  induction obj1 as [|[k' v'] r IH]; simpl; [done|].
  by destruct (String.eqb k' k).
Qed.

Lemma keys_app obj1 obj2 : keys (obj1 ++ obj2) = keys obj1 ++ keys obj2.
Proof. unfold keys. apply map_app. Qed.

Lemma set_absent obj k v : k ∉ keys obj -> set k v obj = obj ++ [(k, v)].
Proof.
  induction obj as [|[k' v'] r IH]; simpl; [done|].
  rewrite not_elem_of_cons. intros [Hne Hr].
  destruct (String.eqb_spec k' k) as [->|_]; [done|]. by rewrite IH.
Qed.

Lemma set_present obj k v :
  NoDup (keys obj) -> k ∈ keys obj ->
  set k v obj = map (fun kv => if String.eqb kv.1 k then (kv.1, v) else kv) obj.
Proof.
  induction obj as [|[k' v'] r IH]; simpl.
  - intros _ H. by apply elem_of_nil in H.
  - intros Hnd H. apply NoDup_cons in Hnd as [Hk Hnd].
    destruct (String.eqb_spec k' k) as [->|Hne].
    + f_equal. symmetry. apply map_fixed.
      intros [k2 v2] Hin. simpl. destruct (String.eqb_spec k2 k) as [->|]; [|done].
      exfalso. apply Hk. unfold keys. apply list_elem_of_fmap.
      by exists (k, v2).
    + f_equal. apply IH; [done|]. apply elem_of_cons in H as [?|?]; [congruence|done].
Qed.

Lemma set_middle obj1 obj2 k v v' :
  k ∉ keys obj1 -> set k v' (obj1 ++ (k, v) :: obj2) = obj1 ++ (k, v') :: obj2.
Proof.
  induction obj1 as [|[k1 v1] r IH]; simpl.
  - intros _. by rewrite String.eqb_refl.
  - rewrite not_elem_of_cons. intros [Hne Hr].
    destruct (String.eqb_spec k1 k) as [->|_]; [done|]. by rewrite IH.
Qed.

Lemma set_same obj k v : get k obj = Some v -> set k v obj = obj.
Proof.
  induction obj as [|[k' v'] r IH]; simpl; [done|].
  destruct (String.eqb_spec k' k) as [->|Hne].
  - by intros [= ->].
  - intros H. by rewrite IH.
Qed.

Lemma keys_set obj k v :
  keys (set k v obj) = if bool_decide (k ∈ keys obj) then keys obj else keys obj ++ [k].
Proof.
  induction obj as [|[k' v'] r IH]; simpl; [done|].
  destruct (String.eqb_spec k' k) as [->|Hne].
  - rewrite bool_decide_eq_true_2; [done|left].
  - simpl. rewrite IH. destruct (decide (k ∈ keys r)) as [Hin|Hin].
    + rewrite !bool_decide_eq_true_2; [done|by right|done].
    + rewrite !bool_decide_eq_false_2; [done| |done].
      rewrite not_elem_of_cons. intuition congruence.
Qed.

Lemma get_set obj k k' v :
  get k' (set k v obj) = if String.eqb k k' then Some v else get k' obj.
Proof.
  induction obj as [|[k1 v1] r IH]; simpl.
  - done.
  - destruct (String.eqb_spec k1 k) as [->|Hne]; simpl.
    + by destruct (String.eqb k k').
    + rewrite IH. destruct (String.eqb_spec k1 k') as [->|Hne'].
      * destruct (String.eqb_spec k k'); [congruence|done].
      * done.
Qed.

(** On an object with distinct property names, the key loop is a map
    over the properties. *)
Lemma forKeys_map (body : string -> V -> V) (ks : list string) obj :
  NoDup ks -> NoDup (keys obj) ->
  forKeys body ks obj =
  map (fun kv => if bool_decide (kv.1 ∈ ks) then (kv.1, body kv.1 kv.2) else kv) obj.
Proof.
  unfold forKeys. revert obj.
  induction ks as [|k r IH]; intros obj Hks Hobj; cbn [fold_left].
  - symmetry. apply map_fixed. intros kv _.
    rewrite bool_decide_eq_false_2; [done|apply not_elem_of_nil].
  - apply NoDup_cons in Hks as [Hk Hr].
    destruct (get k obj) as [v|] eqn:Hget.
    + rewrite set_present by eauto using get_Some_key.
      rewrite IH; [|done|].
      2:{ replace (keys _) with (keys obj); [done|].
          unfold keys. rewrite map_map. apply map_ext.
          intros [k2 v2]; simpl. by destruct (String.eqb k2 k). }
      rewrite map_map. apply map_ext_in. intros [k2 v2] Hin. simpl.
      apply list_elem_of_In in Hin.
      destruct (String.eqb_spec k2 k) as [->|Hne]; simpl.
      * rewrite (elem_get obj k v2 Hobj Hin) in Hget. injection Hget as ->.
        rewrite bool_decide_eq_false_2 by done.
        rewrite bool_decide_eq_true_2; [done|left].
      * destruct (decide (k2 ∈ r)) as [Hin2|Hin2].
        -- rewrite !bool_decide_eq_true_2; [done|by right|done].
        -- rewrite !bool_decide_eq_false_2; [done| |done].
           rewrite not_elem_of_cons. intuition congruence.
    + rewrite IH by done. apply map_ext_in. intros [k2 v2] Hin. simpl.
      apply list_elem_of_In in Hin.
      assert (k2 ≠ k) as Hne.
      { intros ->. apply get_None in Hget. apply Hget.
        unfold keys. apply list_elem_of_fmap. by exists (k, v2). }
      destruct (decide (k2 ∈ r)) as [Hin2|Hin2].
      * rewrite !bool_decide_eq_true_2; [done|by right|done].
      * rewrite !bool_decide_eq_false_2; [done| |done].
        rewrite not_elem_of_cons. intuition congruence.
Qed.

Lemma forKeys_all (body : string -> V -> V) obj :
  NoDup (keys obj) ->
  forKeys body (keys obj) obj = map (fun kv => (kv.1, body kv.1 kv.2)) obj.
Proof.
  intros Hnd. rewrite forKeys_map by done. apply map_ext_in.
  intros [k v] Hin. simpl. rewrite bool_decide_eq_true_2; [done|].
  unfold keys. apply list_elem_of_fmap. exists (k, v).
  split; [done|]. by apply list_elem_of_In.
Qed.

(** The same for the loop that threads a state. *)
Lemma forIn_mapAccum {S} (body : V -> S -> V * S) obj (s : S) :
  NoDup (keys obj) ->
  forIn body obj s =
  mapAccum (fun kv s => let '(v', s') := body kv.2 s in ((kv.1, v'), s')) obj s.
Proof.
  unfold forIn.
  set (step := fun (st : Props V * S) key =>
    let '(obj, s) := st in
    match get key obj with
    | Some v => let '(v', s') := body v s in (set key v' obj, s')
    | None => (obj, s)
    end).
  set (g := fun (kv : string * V) s =>
    let '(v', s') := body kv.2 s in ((kv.1, v'), s')).
  assert (forall suf pre s, NoDup (keys (pre ++ suf)) ->
    fold_left step (keys suf) (pre ++ suf, s) =
    let '(suf', s') := mapAccum g suf s in (pre ++ suf', s')) as Hgen.
  { induction suf as [|[k v] r IH]; intros pre s0 Hnd; simpl.
    - by rewrite app_nil_r.
    - assert (k ∉ keys pre) as Hk.
      { rewrite keys_app in Hnd. apply NoDup_app in Hnd as (_ & Hd & _).
        intros Hin. apply (Hd k Hin). left. }
      rewrite get_app.
      replace (get k pre) with (@None V) by (symmetry; by apply get_None).
      simpl. rewrite String.eqb_refl.
      unfold g at 1. simpl. destruct (body v s0) as [v' s'] eqn:Hb.
      rewrite set_middle by done.
      specialize (IH (pre ++ [(k, v')]) s').
      rewrite <- !app_assoc in IH. simpl in IH. rewrite IH.
      + destruct (mapAccum g r s'). by rewrite <- app_assoc.
      + rewrite keys_app in *. simpl in *. done. }
  intros Hnd. specialize (Hgen obj [] s Hnd). simpl in Hgen.
  transitivity (let '(suf', s') := mapAccum g obj s in (suf', s')).
  - exact Hgen.
  - by destruct (mapAccum g obj s).
Qed.

Lemma NoDup_keys_set obj k v : NoDup (keys obj) -> NoDup (keys (set k v obj)).
Proof.
  intros Hnd. rewrite keys_set. case_bool_decide as Hin; [done|].
  apply NoDup_app. split; [done|]. split; [|apply NoDup_singleton].
  intros x Hx Hx'. apply list_elem_of_singleton in Hx' as ->. done.
Qed.

Lemma Forall_set (P : V -> Prop) obj k v :
  Forall (fun kv => P kv.2) obj -> P v -> Forall (fun kv => P kv.2) (set k v obj).
Proof.
  intros Hall Hv. induction Hall as [|[k' v'] r Hx Hr IH]; simpl.
  - by constructor.
  - destruct (String.eqb k' k); constructor; done.
Qed.

Lemma find_keys_None (p : string -> bool) obj k :
  find p (keys obj) = None -> p k = true -> k ∉ keys obj.
Proof.
  intros Hfind Hp Hin. apply list_elem_of_In in Hin.
  pose proof (find_none _ _ Hfind k Hin). congruence.
Qed.

Lemma find_keys_Some (p : string -> bool) obj k :
  find p (keys obj) = Some k -> k ∈ keys obj /\ p k = true.
Proof. intros H. apply find_some in H as [H1 H2]. by apply list_elem_of_In in H1. Qed.

End Props.

Section MapAccum.

Context {A B S : Type}.
Implicit Types (f : A -> S -> B * S) (l : list A) (s : S).

Lemma mapAccum_ext f g l s :
  (forall x s, x ∈ l -> f x s = g x s) -> mapAccum f l s = mapAccum g l s.
Proof.
  revert s. induction l as [|x r IH]; intros s H; simpl; [done|].
  rewrite (H x s) by left. destruct (g x s) as [y s1].
  rewrite IH; [done|]. intros z s2 Hz. apply H. by right.
Qed.

(** Every output element comes from the input element at the same
    position, run in some state. *)
Lemma mapAccum_Forall2 f l s :
  Forall2 (fun x y => exists s1, (f x s1).1 = y) l (mapAccum f l s).1.
Proof.
  revert s. induction l as [|x r IH]; intros s; simpl; [constructor|].
  destruct (f x s) as [y s1] eqn:E. specialize (IH s1).
  destruct (mapAccum f r s1) as [ys s2]. simpl in *.
  constructor; [|done]. exists s. by rewrite E.
Qed.

(** A property of the state kept by every step is kept by the map. *)
Lemma mapAccum_state (Q : S -> Prop) f l s :
  (forall x s, x ∈ l -> Q s -> Q (f x s).2) -> Q s -> Q (mapAccum f l s).2.
Proof.
  revert s. induction l as [|x r IH]; intros s H Hs; simpl; [done|].
  pose proof (H x s ltac:(left) Hs) as H1.
  destruct (f x s) as [y s1]. simpl in H1.
  specialize (IH s1 (fun z s2 Hz => H z s2 ltac:(by right)) H1).
  by destruct (mapAccum f r s1) as [ys s2].
Qed.

End MapAccum.

Lemma mapAccum_fixed {A S} (f : A -> S -> A * S) (l : list A) (s : S) :
  (forall x s, x ∈ l -> f x s = (x, s)) -> mapAccum f l s = (l, s).
Proof.
  revert s. induction l as [|x r IH]; intros s H; simpl; [done|].
  rewrite (H x s) by left. rewrite IH; [done|].
  intros z s2 Hz. apply H. by right.
Qed.

End JsFacts.

(** ** JSON values *)

Module JsonFacts.

Import JsFacts.

Lemma JsonValue_ind (P : JsonValue -> Prop) :
  P JNull -> (forall b, P (JBool b)) -> (forall x, P (JNumber x)) ->
  (forall s, P (JString s)) ->
  (forall items, Forall P items -> P (JArray items)) ->
  (forall props, Forall (fun kv => P kv.2) props -> P (JObject props)) ->
  forall v, P v.
Proof.
  intros Hn Hb Hx Hs Ha Ho. fix IH 1. intros [|b|x|s|items|props].
  - exact Hn.
  - apply Hb.
  - apply Hx.
  - apply Hs.
  - apply Ha. induction items as [|x r IHr]; constructor; [apply IH|exact IHr].
  - apply Ho. induction props as [|[k x] r IHr]; constructor; [apply IH|exact IHr].
Qed.

Lemma depth_item (items : list JsonValue) (x : JsonValue) :
  x ∈ items -> depth x < depth (JArray items).
Proof.
  simpl. induction items as [|y r IH]; intros H.
  - by apply elem_of_nil in H.
  - apply elem_of_cons in H as [->|H]; simpl; [lia|]. specialize (IH H). lia.
Qed.

Lemma depth_prop (props : Props JsonValue) (kv : string * JsonValue) :
  kv ∈ props -> depth kv.2 < depth (JObject props).
Proof.
  simpl. induction props as [|y r IH]; intros H.
  - by apply elem_of_nil in H.
  - apply elem_of_cons in H as [->|H]; simpl; [lia|]. specialize (IH H). lia.
Qed.

Lemma wf_array (items : list JsonValue) :
  wf (JArray items) = true <-> forall x, x ∈ items -> wf x = true.
Proof.
  simpl. rewrite forallb_forall. split; intros H x Hx; apply H; by apply list_elem_of_In.
Qed.

Lemma wf_object (props : Props JsonValue) :
  wf (JObject props) = true <->
  NoDup (keys props) /\ forall kv, kv ∈ props -> wf kv.2 = true.
Proof.
  simpl. rewrite andb_true_iff, bool_decide_eq_true, forallb_forall.
  split; intros [Hnd H]; (split; [done|]); intros x Hx; apply H; by apply list_elem_of_In.
Qed.

Lemma get_map_values {V W} (f : string -> V -> W) (obj : Props V) (k : string) :
  get k (map (fun kv => (kv.1, f kv.1 kv.2)) obj) = f k <$> get k obj.
Proof.
  induction obj as [|[k' v'] r IH]; simpl; [done|].
  destruct (String.eqb_spec k' k) as [->|Hne]; [done|]. apply IH.
Qed.

End JsonFacts.

(** ** The extractor: [extractDisplayNames] *)

Module ExtractFacts.

Import JsFacts JsonFacts Page.

(** What visiting one object node does to the index. *)
Lemma extract_node (obj : Props JsonValue) (dn : gmap string DisplayName) :
  match find isTitleKey (keys obj), find isDisplayNameKey (keys obj) with
  | Some titleKey, Some displayNameKey =>
      match get titleKey obj, get displayNameKey obj with
      | Some (JString t), Some (JString d) => <[t := mkDisplayName t d]> dn
      | _, _ => dn
      end
  | _, _ => dn
  end
  = Spec.record dn obj.
Proof.
  unfold Spec.record, Spec.labelOf, titleOf, displayNameOf, stringAt.
  destruct (find isTitleKey (keys obj)) as [tk|];
    destruct (find isDisplayNameKey (keys obj)) as [dk|]; try done.
  - destruct (get tk obj) as [[| | |t| |]|]; try done;
      destruct (get dk obj) as [[| | |d| |]|]; done.
  - by destruct (get tk obj) as [[| | |t| |]|].
Qed.

(** The extractor visits the object nodes in pre-order. *)
Lemma extract_nodes (v : JsonValue) :
  forall dn,
  extractDisplayNames v dn = fold_left Spec.record (nodes v) dn.
Proof.
  induction v as [|b|x|s|items IH|props IH] using JsonValue_ind; intros dn; try done.
  - cbn [extractDisplayNames nodes]. revert dn.
    induction IH as [|x r Hx _ IHr]; intros dn; [done|].
    cbn [fold_left flat_map]. rewrite fold_left_app, <- Hx. apply IHr.
  - cbn [extractDisplayNames nodes fold_left]. rewrite extract_node.
    generalize (Spec.record dn props).
    induction IH as [|[k x] r Hx _ IHr]; intros dn'; [done|].
    cbn [fold_left flat_map snd]. rewrite fold_left_app, <- Hx. apply IHr.
Qed.

Lemma displayNamesFor_cons (t : string) (obj : Props JsonValue)
    (objs : list (Props JsonValue)) :
  Spec.displayNamesFor t (obj :: objs)
  = match Spec.labelOf obj with
    | Some (t', d) =>
        if String.eqb t' t then d :: Spec.displayNamesFor t objs
        else Spec.displayNamesFor t objs
    | None => Spec.displayNamesFor t objs
    end.
Proof.
  unfold Spec.displayNamesFor. simpl.
  destruct (Spec.labelOf obj) as [[t' d]|]; [|done].
  by destruct (String.eqb t' t).
Qed.

(** Last write wins: after a run over [objs], the entry of [t] is the
    one written by the last node labelled [t], or the previous entry
    when there is no such node. *)
Lemma fold_lastDisplayName (t : string) (objs : list (Props JsonValue)) :
  forall dn,
  fold_left Spec.record objs dn !! t
  = match Spec.lastDisplayName t objs with
    | Some d => Some (mkDisplayName t d)
    | None => dn !! t
    end.
Proof.
  unfold Spec.lastDisplayName.
  induction objs as [|obj r IH]; intros dn; [done|].
  cbn [fold_left]. rewrite IH, displayNamesFor_cons. unfold Spec.record.
  destruct (Spec.labelOf obj) as [[t' d]|]; [|done].
  destruct (String.eqb_spec t' t) as [->|Hne].
  - rewrite last_cons. destruct (last (Spec.displayNamesFor t r)); [done|].
    by rewrite lookup_insert_eq.
  - destruct (last (Spec.displayNamesFor t r)); [done|].
    by rewrite lookup_insert_ne.
Qed.

Lemma extract_lookup (v : JsonValue) (dn : gmap string DisplayName) (t : string) :
  extractDisplayNames v dn !! t
  = match Spec.lastDisplayName t (nodes v) with
    | Some d => Some (mkDisplayName t d)
    | None => dn !! t
    end.
Proof. rewrite extract_nodes. apply fold_lastDisplayName. Qed.

Lemma displayNamesFor_elem (t d : string) (objs : list (Props JsonValue)) :
  d ∈ Spec.displayNamesFor t objs <->
  exists obj, obj ∈ objs /\ Spec.labelOf obj = Some (t, d).
Proof.
  unfold Spec.displayNamesFor. rewrite list_elem_of_omap. split.
  - intros (obj & Hin & H). exists obj. split; [done|].
    destruct (Spec.labelOf obj) as [[t' d']|]; [|done].
    destruct (String.eqb_spec t' t) as [->|]; [|done]. by injection H as ->.
  - intros (obj & Hin & H). exists obj. split; [done|].
    by rewrite H, String.eqb_refl.
Qed.

(** C1. For every object node of the document that has a title and a
    display name, both strings under the matched keys, the index built
    by the extractor has an entry under that title, and its display name
    is the one of the last node with that title in depth-first
    pre-order. *)
Theorem extractDisplayNames_last_wins (value : JsonValue)
    (displayNames : gmap string DisplayName) (node : Props JsonValue)
    (t d0 : string) :
  node ∈ nodes value ->
  titleOf node = Some t ->
  displayNameOf node = Some d0 ->
  exists d,
    Spec.lastDisplayName t (nodes value) = Some d
    /\ extractDisplayNames value displayNames !! t = Some (mkDisplayName t d).
Proof.
  intros Hin Ht Hd.
  assert (d0 ∈ Spec.displayNamesFor t (nodes value)) as Hmem.
  { apply displayNamesFor_elem. exists node. split; [done|].
    unfold Spec.labelOf. by rewrite Ht, Hd. }
  rewrite extract_lookup. unfold Spec.lastDisplayName.
  destruct (last (Spec.displayNamesFor t (nodes value))) as [d|] eqn:E.
  - by exists d.
  - apply last_None in E. rewrite E in Hmem. by apply elem_of_nil in Hmem.
Qed.

Lemma extractDisplayNames_last_wins_witness :
  exists d,
    Spec.lastDisplayName "A" (nodes Examples.repeatedTitle) = Some d
    /\ extractDisplayNames Examples.repeatedTitle ∅ !! "A" = Some (mkDisplayName "A" d).
Proof.
  apply (extractDisplayNames_last_wins Examples.repeatedTitle ∅
           [("title", JString "A"); ("displayName", JString "X");
            ("items", JArray [JObject [("Title", JString "A");
                                       ("DisplayName", JString "Z")]])]
           "A" "X").
  - apply list_elem_of_In. vm_compute. left. reflexivity.
  - reflexivity.
  - reflexivity.
Defined.

(** On that document the entry of [A] comes from the nested, later node. *)
Example extractDisplayNames_repeated :
  extractDisplayNames Examples.repeatedTitle ∅
  = {["A" := mkDisplayName "A" "Z"; "B" := mkDisplayName "B" "X"]}.
Proof. vm_compute. reflexivity. Qed.

End ExtractFacts.

(** ** The synchroniser: [updateDisplayName] *)

Module UpdateFacts.

Import JsFacts JsonFacts Page.

Lemma rename_primitive (oldValue newValue : string) (v : JsonValue) :
  typeofObject v = false -> Spec.renameDisplayName oldValue newValue v = v.
Proof. by destruct v. Qed.

(** With enough fuel, [updateJson] is the value-based rename. *)
Lemma updateJsonFuel_rename (oldValue newValue : string) (n : nat) :
  forall v, wf v = true -> depth v < n ->
  updateJsonFuel n oldValue newValue v = Spec.renameDisplayName oldValue newValue v.
Proof.
  induction n as [|n IH]; intros v Hwf Hd; [lia|].
  destruct v as [|b|x|s|items|props]; try done.
  - cbn [updateJsonFuel Spec.renameDisplayName]. f_equal.
    apply map_ext_in. intros x Hx. apply list_elem_of_In in Hx.
    apply IH.
    + by apply (proj1 (wf_array items) Hwf).
    + pose proof (depth_item items x Hx). lia.
  - cbn [updateJsonFuel Spec.renameDisplayName]. f_equal.
    apply wf_object in Hwf as [Hnd Hwf].
    rewrite forKeys_all by done.
    apply map_ext_in. intros [k x] Hx. apply list_elem_of_In in Hx.
    cbn [fst snd]. f_equal.
    destruct (isDisplayNameKey k && strictEq x oldValue); [done|].
    destruct (typeofObject x) eqn:Ety.
    + apply IH.
      * apply (Hwf _ Hx).
      * pose proof (depth_prop props _ Hx). simpl in *. lia.
    + symmetry. by apply rename_primitive.
Qed.

Lemma updateJson_rename (oldValue newValue : string) (v : JsonValue) :
  wf v = true -> updateJson oldValue newValue v = Spec.renameDisplayName oldValue newValue v.
Proof. intros Hwf. apply updateJsonFuel_rename; [done|lia]. Qed.

Lemma nodes_rename (oldValue newValue : string) (v : JsonValue) :
  nodes (Spec.renameDisplayName oldValue newValue v) =
  map (Spec.renamedProps oldValue newValue) (nodes v).
Proof.
  induction v as [|b|x|s|items IH|props IH] using JsonValue_ind; try done.
  - cbn [Spec.renameDisplayName nodes].
    induction IH as [|x r Hx _ IHr]; [done|].
    cbn [map flat_map]. rewrite map_app, Hx. f_equal. exact IHr.
  - cbn [Spec.renameDisplayName nodes map]. f_equal.
    + unfold Spec.renamedProps. apply map_ext. by intros [k x].
    + induction IH as [|[k x] r Hx _ IHr]; [done|].
      cbn [map flat_map fst snd]. rewrite map_app. f_equal; [|exact IHr].
      destruct (isDisplayNameKey k && strictEq x oldValue) eqn:E; [|exact Hx].
      apply andb_true_iff in E as [_ E]. destruct x; try done.
Qed.

Lemma renamedProps_field (oldValue newValue : string) (obj : Props JsonValue)
    (k d : string) :
  isDisplayNameKey k = true -> get k obj = Some (JString d) ->
  get k (Spec.renamedProps oldValue newValue obj)
  = Some (JString (if String.eqb d oldValue then newValue else d)).
Proof.
  intros Hk Hget. unfold Spec.renamedProps.
  rewrite (get_map_values
    (fun k x => if isDisplayNameKey k && strictEq x oldValue
                then JString newValue
                else Spec.renameDisplayName oldValue newValue x)).
  rewrite Hget. simpl. rewrite Hk. simpl. by destruct (String.eqb d oldValue).
Qed.

Lemma keys_renamedProps (oldValue newValue : string) (obj : Props JsonValue) :
  keys (Spec.renamedProps oldValue newValue obj) = keys obj.
Proof. unfold Spec.renamedProps, keys. by rewrite map_map. Qed.

(** C2. When [title] is a key of the index, [updateDisplayName] sets the
    display name of that entry to [newValue] and turns the document into
    its value-based rename: in every object node every display-name
    field holding the old display name of the entry now holds
    [newValue], whatever the title of the node, and every other
    display-name string is kept. *)
Theorem updateDisplayName_renames (JSON_stringify : JsonValue -> string)
    (title newValue : string) (s : State) (entry : DisplayName) :
  wf (parsedJson s) = true ->
  displayNames s !! title = Some entry ->
  let oldValue := displayName entry in
  let s' := updateDisplayName JSON_stringify title newValue s in
  displayNames s' = <[title := mkDisplayName (Page.title entry) newValue]> (displayNames s)
  /\ parsedJson s' = Spec.renameDisplayName oldValue newValue (parsedJson s)
  /\ Forall2
       (fun obj obj' =>
          keys obj' = keys obj /\
          forall k d, isDisplayNameKey k = true -> get k obj = Some (JString d) ->
            get k obj' = Some (JString (if String.eqb d oldValue then newValue else d)))
       (nodes (parsedJson s)) (nodes (parsedJson s')).
Proof.
  intros Hwf Hentry oldValue s'.
  assert (displayNames s' = <[title := mkDisplayName (Page.title entry) newValue]> (displayNames s)
          /\ parsedJson s' = Spec.renameDisplayName oldValue newValue (parsedJson s))
    as [Hdn Hpj].
  { subst s'. unfold updateDisplayName. rewrite Hentry.
    unfold updateJsonDisplay. cbn [parsedJson withParsedJson withDisplayNames].
    rewrite updateJson_rename by done.
    by destruct (truthy _ && typeofObject _). }
  split; [exact Hdn|]. split; [exact Hpj|].
  rewrite Hpj, nodes_rename. apply Forall2_fmap_r, Forall_Forall2_diag.
  apply Forall_forall. intros obj _. split.
  - apply keys_renamedProps.
  - intros k d Hk Hget. by apply renamedProps_field.
Qed.

Lemma updateDisplayName_renames_witness :
  let s' := updateDisplayName (fun _ => "") "A" "Y" Examples.collisionState in
  displayNames s' = <["A" := mkDisplayName "A" "Y"]> (displayNames Examples.collisionState)
  /\ parsedJson s' = Spec.renameDisplayName "X" "Y" (parsedJson Examples.collisionState)
  /\ Forall2
       (fun obj obj' =>
          keys obj' = keys obj /\
          forall k d, isDisplayNameKey k = true -> get k obj = Some (JString d) ->
            get k obj' = Some (JString (if String.eqb d "X" then "Y" else d)))
       (nodes (parsedJson Examples.collisionState)) (nodes (parsedJson s')).
Proof.
  apply (updateDisplayName_renames (fun _ => "") "A" "Y" Examples.collisionState
           (mkDisplayName "A" "X")); vm_compute; reflexivity.
Defined.

(** Renaming [A] also renames the node of [B]. *)
Example updateDisplayName_collision :
  parsedJson (updateDisplayName (fun _ => "") "A" "Y" Examples.collisionState)
  = JArray [JObject [("title", JString "A"); ("displayName", JString "Y")];
            JObject [("title", JString "B"); ("displayName", JString "Y")]].
Proof. vm_compute. reflexivity. Qed.

(** C7. With a title that is not a key of the index, [updateDisplayName]
    changes nothing: the document, the index and the rest of the state
    are the ones it was given. *)
Theorem updateDisplayName_unknown_title (JSON_stringify : JsonValue -> string)
    (title newValue : string) (s : State) :
  displayNames s !! title = None ->
  updateDisplayName JSON_stringify title newValue s = s.
Proof. intros H. unfold updateDisplayName. by rewrite H. Qed.

Lemma updateDisplayName_unknown_title_witness :
  updateDisplayName (fun _ => "") "C" "Y" Examples.collisionState = Examples.collisionState.
Proof.
  apply (updateDisplayName_unknown_title (fun _ => "") "C" "Y" Examples.collisionState).
  vm_compute. reflexivity.
Defined.

(** C8. When [JSON.parse] rejects the input, [parseJson] catches the
    error and leaves the state as it was, and so does the handler of
    the editor but for the text it has just read: the document and the
    index are the previous ones. *)
Theorem parseJson_malformed (JSON_parse : string -> option JsonValue)
    (JSON_stringify : JsonValue -> string) (input : string) (s : State) :
  JSON_parse input = None ->
  parseJson JSON_parse JSON_stringify input s = s
  /\ handleJsonInputChange JSON_parse JSON_stringify input s = withJsonInput input s
  /\ parsedJson (handleJsonInputChange JSON_parse JSON_stringify input s) = parsedJson s
  /\ displayNames (handleJsonInputChange JSON_parse JSON_stringify input s)
     = displayNames s.
Proof.
  intros H. unfold parseJson, handleJsonInputChange. cbn [jsonInput withJsonInput].
  by rewrite H.
Qed.

Lemma parseJson_malformed_witness :
  parseJson Examples.parseLiteral (fun _ => "") "{" Examples.collisionState
  = Examples.collisionState.
Proof.
  apply (parseJson_malformed Examples.parseLiteral (fun _ => "") "{"
           Examples.collisionState).
  reflexivity.
Defined.

End UpdateFacts.

(** ** The gap-filler: [addMissingDisplayNames] *)

Module FillFacts.

Import JsFacts JsonFacts Page.

Section FillNode.

Context {V : Type} `{Value V}.
Implicit Types (obj : Props V) (dn : gmap string DisplayName).

Lemma fillNode_NoDup obj dn :
  NoDup (keys obj) -> NoDup (keys (fillNode obj dn).1).
Proof.
  intros Hnd. unfold fillNode.
  repeat case_match; simpl; auto using NoDup_keys_set.
Qed.

Lemma fillNode_Forall (P : V -> Prop) obj dn :
  Forall (fun kv => P kv.2) obj -> (forall s, P (ofString s)) ->
  Forall (fun kv => P kv.2) (fillNode obj dn).1.
Proof.
  intros Hall Hs. unfold fillNode.
  repeat case_match; simpl; auto using Forall_set.
Qed.

(** The node rule only adds entries to the index. *)
Lemma fillNode_index obj dn k e :
  dn !! k = Some e -> (fillNode obj dn).2 !! k = Some e.
Proof.
  intros Hk. unfold fillNode. repeat case_match; simpl; try done.
  rewrite lookup_insert_ne; [done|]. intros E. congruence.
Qed.

End FillNode.

Lemma addMissingFuel_array (n : nat) (items : list JsonValue)
    (dn : gmap string DisplayName) :
  addMissingFuel (S n) (JArray items) dn
  = (JArray (mapAccum (addMissingFuel n) items dn).1,
     (mapAccum (addMissingFuel n) items dn).2).
Proof. cbn [addMissingFuel]. by destruct (mapAccum _ items dn). Qed.

Lemma addMissingFuel_object (n : nat) (props : Props JsonValue)
    (dn : gmap string DisplayName) :
  NoDup (keys props) ->
  addMissingFuel (S n) (JObject props) dn
  = let obj := (fillNode props dn).1 in
    let dn1 := (fillNode props dn).2 in
    (JObject (mapAccum (Spec.visitProp (addMissingFuel n)) obj dn1).1,
     (mapAccum (Spec.visitProp (addMissingFuel n)) obj dn1).2).
Proof.
  intros Hnd. cbn [addMissingFuel].
  pose proof (fillNode_NoDup props dn Hnd) as Hnd1.
  destruct (fillNode props dn) as [obj dn1]. cbn [fst snd] in *.
  rewrite forIn_mapAccum by done.
  change (fun kv s => let '(v', s') := addMissingFuel n kv.2 s in (kv.1, v', s'))
    with (Spec.visitProp (addMissingFuel n)).
  by destruct (mapAccum _ obj dn1).
Qed.

(** The children of a node after the node rule are children of the
    node, or new strings: well formed, and less deep than the node. *)
Lemma fillNode_children (props : Props JsonValue) (dn : gmap string DisplayName) :
  wf (JObject props) = true ->
  Forall (fun kv => wf kv.2 = true /\ depth kv.2 < depth (JObject props))
    (fillNode props dn).1.
Proof.
  intros Hwf. apply wf_object in Hwf as [_ Hwf].
  apply (fillNode_Forall (fun v => wf v = true /\ depth v < depth (JObject props))).
  - apply Forall_forall. intros kv Hkv. split; [by apply Hwf|by apply depth_prop].
  - intros s. split; [done|]. simpl. lia.
Qed.

Lemma addMissingFuel_step (n : nat) :
  forall v dn, wf v = true -> depth v < n ->
  addMissingFuel (S n) v dn = addMissingFuel n v dn.
Proof.
  induction n as [|n IH]; intros v dn Hwf Hd; [lia|].
  destruct v as [|b|x|s|items|props]; try done.
  - rewrite !addMissingFuel_array.
    rewrite (mapAccum_ext (addMissingFuel (S n)) (addMissingFuel n)); [done|].
    intros x s Hx. apply IH.
    + by apply (proj1 (wf_array items) Hwf).
    + pose proof (depth_item items x Hx). lia.
  - pose proof (fillNode_children props dn Hwf) as Hch.
    pose proof (proj1 (wf_object props) Hwf) as [Hnd _].
    rewrite !addMissingFuel_object by done. cbn zeta.
    rewrite (mapAccum_ext (Spec.visitProp (addMissingFuel (S n)))
               (Spec.visitProp (addMissingFuel n))); [done|].
    intros kv s Hkv. unfold Spec.visitProp.
    rewrite Forall_forall in Hch. destruct (Hch kv Hkv) as [Hwfk Hdk].
    rewrite IH; [done|done|lia].
Qed.

(** Any fuel above the depth gives the result of [addMissingDisplayNames]. *)
Lemma addMissingFuel_enough (n : nat) (v : JsonValue) (dn : gmap string DisplayName) :
  wf v = true -> depth v < n ->
  addMissingFuel n v dn = addMissingDisplayNames v dn.
Proof.
  intros Hwf. unfold addMissingDisplayNames.
  induction n as [|n IH]; intros Hd; [lia|].
  destruct (decide (depth v < n)) as [Hlt|Hge].
  - rewrite addMissingFuel_step by done. by apply IH.
  - by replace n with (depth v) by lia.
Qed.

(** The equations of [addMissingDisplayNames] on well-formed documents:
    arrays are mapped element by element, objects get the node rule and
    then every property is visited, the index being threaded through in
    that order. *)
Lemma addMissing_array (items : list JsonValue) (dn : gmap string DisplayName) :
  wf (JArray items) = true ->
  addMissingDisplayNames (JArray items) dn
  = (JArray (mapAccum addMissingDisplayNames items dn).1,
     (mapAccum addMissingDisplayNames items dn).2).
Proof.
  intros Hwf. unfold addMissingDisplayNames at 1. rewrite addMissingFuel_array.
  rewrite (mapAccum_ext (addMissingFuel (depth (JArray items))) addMissingDisplayNames);
    [done|].
  intros x s Hx. apply addMissingFuel_enough.
  - by apply (proj1 (wf_array items) Hwf).
  - by apply depth_item.
Qed.

Lemma addMissing_object (props : Props JsonValue) (dn : gmap string DisplayName) :
  wf (JObject props) = true ->
  addMissingDisplayNames (JObject props) dn
  = let obj := (fillNode props dn).1 in
    let dn1 := (fillNode props dn).2 in
    (JObject (mapAccum (Spec.visitProp addMissingDisplayNames) obj dn1).1,
     (mapAccum (Spec.visitProp addMissingDisplayNames) obj dn1).2).
Proof.
  intros Hwf. unfold addMissingDisplayNames at 1.
  pose proof (fillNode_children props dn Hwf) as Hch.
  pose proof (proj1 (wf_object props) Hwf) as [Hnd _].
  rewrite addMissingFuel_object by done. cbn zeta.
  rewrite (mapAccum_ext (Spec.visitProp (addMissingFuel (depth (JObject props))))
             (Spec.visitProp addMissingDisplayNames)); [done|].
  intros kv s Hkv. unfold Spec.visitProp.
  rewrite Forall_forall in Hch. destruct (Hch kv Hkv) as [Hwfk Hdk].
  by rewrite addMissingFuel_enough.
Qed.

(** *** Idempotence *)

Lemma find_app {A} (p : A -> bool) (l1 l2 : list A) :
  find p (l1 ++ l2) = match find p l1 with Some x => Some x | None => find p l2 end.
Proof. induction l1 as [|x r IH]; simpl; [done|]. by destruct (p x). Qed.

Lemma Forall_flat_map {A B} (P : B -> Prop) (f : A -> list B) (l : list A) :
  Forall P (flat_map f l) <-> Forall (fun x => Forall P (f x)) l.
Proof.
  induction l as [|x r IH]; simpl.
  - split; constructor.
  - rewrite Forall_app, Forall_cons, IH. done.
Qed.

Lemma Forall2_impl_elem {A B} (R R' : A -> B -> Prop) (l : list A) (l' : list B) :
  Forall2 R l l' -> (forall x y, x ∈ l -> R x y -> R' x y) -> Forall2 R' l l'.
Proof.
  intros HF. induction HF as [|x y r r' Hxy _ IH]; intros H; constructor.
  - apply H; [left|done].
  - apply IH. intros a b Ha. apply H. by right.
Qed.

Lemma stringAt_JString (k : string) (obj : Props JsonValue) (d : string) :
  stringAt (Some k) obj = Some d -> get k obj = Some (JString d).
Proof.
  unfold stringAt. destruct (get k obj) as [[| | |s| |]|]; try done.
  by intros [= ->].
Qed.

(** A settled node is left alone by the node rule. *)
Lemma settled_fillNode (obj : Props JsonValue) (dn : gmap string DisplayName) :
  Spec.settled obj -> fillNode obj dn = (obj, dn).
Proof.
  unfold Spec.settled, fillNode.
  destruct (find isTitleKey (keys obj)) as [tk|];
    destruct (find isDisplayNameKey (keys obj)) as [dk|]; intros Hs.
  - destruct (stringAt (Some dk) obj) as [d|] eqn:E; [|done].
    rewrite (Hs d eq_refl). change (@ofString JsonValue _ d) with (JString d).
    by rewrite (set_same obj dk _ (stringAt_JString _ _ _ E)).
  - by rewrite Hs.
  - destruct (stringAt (Some dk) obj) as [d|] eqn:E; [|done].
    rewrite (Hs d eq_refl). change (@ofString JsonValue _ d) with (JString d).
    by rewrite (set_same obj dk _ (stringAt_JString _ _ _ E)).
  - done.
Qed.

Lemma settled_trimmed (obj : Props JsonValue) (tk : option string) (dk d : string) :
  find isDisplayNameKey (keys obj) = Some dk ->
  NoDup (keys obj) ->
  find isTitleKey (keys obj) = tk ->
  Spec.settled (set dk (JString (trim d)) obj).
Proof.
  intros Hdk Hnd Htk. unfold Spec.settled.
  pose proof (find_keys_Some _ _ _ Hdk) as [Hin _].
  rewrite keys_set, bool_decide_eq_true_2 by done. rewrite Htk, Hdk.
  assert (forall d', stringAt (Some dk) (set dk (JString (trim d)) obj) = Some d' ->
                     trim d' = d') as Hgoal.
  { intros d'. unfold stringAt. rewrite get_set, String.eqb_refl. simpl.
    intros [= <-]. apply trim_idemp. }
  by destruct tk.
Qed.

(** The node rule settles the node. *)
Lemma fillNode_settled (props : Props JsonValue) (dn : gmap string DisplayName) :
  NoDup (keys props) -> Spec.settled (fillNode props dn).1.
Proof.
  intros Hnd. unfold fillNode.
  destruct (find isTitleKey (keys props)) as [tk|] eqn:Etk;
    destruct (find isDisplayNameKey (keys props)) as [dk|] eqn:Edk.
  - destruct (stringAt (Some dk) props) as [d|] eqn:E; simpl.
    + by eapply settled_trimmed.
    + unfold Spec.settled. rewrite Etk, Edk. intros d. congruence.
  - assert ("displayName" ∉ keys props) as Hfresh
      by (by apply (find_keys_None isDisplayNameKey)).
    assert (forall x, trim x = x ->
              Spec.settled (set "displayName" (JString x) props)) as Hinj.
    { intros x Hx. rewrite set_absent by done. unfold Spec.settled.
      rewrite keys_app, !find_app, Etk, Edk. simpl.
      intros d. unfold stringAt. rewrite get_app.
      replace (get "displayName" props) with (@None JsonValue)
        by (symmetry; by apply get_None).
      simpl. by intros [= <-]. }
    destruct (stringAt (Some tk) props) as [t|] eqn:E; simpl.
    + destruct (dn !! trim t); simpl; apply Hinj, trim_idemp.
    + unfold Spec.settled. by rewrite Etk, Edk.
  - destruct (stringAt (Some dk) props) as [d|] eqn:E; simpl.
    + by eapply settled_trimmed.
    + unfold Spec.settled. rewrite Etk, Edk. intros d. congruence.
  - simpl. unfold Spec.settled. by rewrite Etk, Edk.
Qed.

(** Being settled depends on the keys and on the string values only. *)
Lemma settled_same (obj obj' : Props JsonValue) :
  Forall2 (fun kv kv' => kv'.1 = kv.1 /\ stringOf kv'.2 = stringOf kv.2) obj obj' ->
  Spec.settled obj -> Spec.settled obj'.
Proof.
  intros Hsame.
  assert (keys obj' = keys obj) as Hkeys.
  { induction Hsame as [|kv kv' r r' [Hk _] _ IH]; simpl; [done|]. by rewrite Hk, IH. }
  assert (forall k, stringAt (Some k) obj' = stringAt (Some k) obj) as Hstr.
  { intros k. unfold stringAt.
    induction Hsame as [|[k1 v1] [k2 v2] r r' [Hk Hv] _ IH]; simpl in *; [done|].
    subst k2. destruct (String.eqb k1 k); [done|]. apply IH.
    by injection Hkeys. }
  unfold Spec.settled. rewrite Hkeys.
  destruct (find isTitleKey (keys obj)) as [tk|];
    destruct (find isDisplayNameKey (keys obj)) as [dk|];
    rewrite ?Hstr; done.
Qed.

(** The result of the gap-filler is well formed, all its nodes are
    settled, and a string stays the string it was. *)
Lemma addMissing_settles (d : nat) :
  forall v dn, depth v < d -> wf v = true ->
  wf (addMissingDisplayNames v dn).1 = true
  /\ Forall Spec.settled (nodes (addMissingDisplayNames v dn).1)
  /\ stringOf (addMissingDisplayNames v dn).1 = stringOf v.
Proof.
  induction d as [|d IH]; intros v dn Hd Hwf; [lia|].
  destruct v as [|b|x|s|items|props]; try (by repeat split; try constructor).
  - rewrite addMissing_array by done. cbn [fst snd].
    pose proof (mapAccum_Forall2 addMissingDisplayNames items dn) as HF.
    assert (Forall (fun y => wf y = true /\ Forall Spec.settled (nodes y))
              (mapAccum addMissingDisplayNames items dn).1) as Hall.
    { eapply Forall2_Forall_r; [exact HF|].
      apply Forall_forall. intros x Hx y [s1 <-].
      destruct (IH x s1) as (H1 & H2 & _); [|by apply (proj1 (wf_array items) Hwf)|done].
      pose proof (depth_item items x Hx). lia. }
    split; [|split; [|done]].
    + apply wf_array. intros y Hy. rewrite Forall_forall in Hall. by apply Hall.
    + cbn [nodes]. apply Forall_flat_map.
      eapply Forall_impl; [exact Hall|]. by intros y [_ ?].
  - rewrite addMissing_object by done. cbn zeta. cbn [fst snd].
    pose proof (fillNode_children props dn Hwf) as Hch.
    pose proof (proj1 (wf_object props) Hwf) as [Hnd _].
    pose proof (fillNode_NoDup props dn Hnd) as Hnd1.
    pose proof (fillNode_settled props dn Hnd) as Hset.
    set (obj1 := (fillNode props dn).1) in *.
    set (dn1 := (fillNode props dn).2).
    pose proof (mapAccum_Forall2 (Spec.visitProp addMissingDisplayNames) obj1 dn1) as HF.
    set (obj2 := (mapAccum (Spec.visitProp addMissingDisplayNames) obj1 dn1).1) in *.
    assert (Forall2 (fun kv kv' => kv'.1 = kv.1 /\ stringOf kv'.2 = stringOf kv.2
                                   /\ wf kv'.2 = true
                                   /\ Forall Spec.settled (nodes kv'.2)) obj1 obj2) as HF2.
    { eapply Forall2_impl_elem; [exact HF|].
      intros kv kv' Hkv [s1 <-]. unfold Spec.visitProp.
      rewrite Forall_forall in Hch. destruct (Hch kv Hkv) as [Hwfk Hdk].
      destruct (IH kv.2 s1) as (H1 & H2 & H3); [simpl in *; lia|done|].
      by destruct (addMissingDisplayNames kv.2 s1). }
    assert (keys obj2 = keys obj1) as Hkeys.
    { clear -HF2. induction HF2 as [|kv kv' r r' [Hk _] _ IHr]; simpl; [done|].
      by rewrite Hk, IHr. }
    split; [|split; [|done]].
    + apply wf_object. rewrite Hkeys. split; [done|].
      intros kv' Hkv'. apply (Forall2_Forall_r _ (fun kv' => wf kv'.2 = true)) in HF2.
      * rewrite Forall_forall in HF2. by apply HF2.
      * apply Forall_forall. by intros kv _ kv2 (_ & _ & ? & _).
    + cbn [nodes]. constructor.
      * eapply settled_same; [|exact Hset].
        eapply Forall2_impl; [exact HF2|]. by intros kv kv' (? & ? & _).
      * apply Forall_flat_map.
        apply (Forall2_Forall_r _ (fun kv' => Forall Spec.settled (nodes kv'.2))) in HF2; [done|].
        apply Forall_forall. by intros kv _ kv2 (_ & _ & _ & ?).
Qed.

(** On a document whose nodes are all settled the gap-filler changes
    neither the document nor the index. *)
Lemma addMissing_fixed (d : nat) :
  forall v dn, depth v < d -> wf v = true ->
  Forall Spec.settled (nodes v) ->
  addMissingDisplayNames v dn = (v, dn).
Proof.
  induction d as [|d IH]; intros v dn Hd Hwf Hn; [lia|].
  destruct v as [|b|x|s|items|props]; try done.
  - rewrite addMissing_array by done.
    rewrite (mapAccum_fixed addMissingDisplayNames items dn); [done|].
    intros x s Hx. apply IH.
    + pose proof (depth_item items x Hx). lia.
    + by apply (proj1 (wf_array items) Hwf).
    + cbn [nodes] in Hn. apply Forall_flat_map in Hn.
      rewrite Forall_forall in Hn. by apply Hn.
  - rewrite addMissing_object by done. cbn zeta.
    cbn [nodes] in Hn. apply Forall_cons in Hn as [Hset Hn].
    rewrite settled_fillNode by done. cbn [fst snd].
    rewrite (mapAccum_fixed (Spec.visitProp addMissingDisplayNames) props dn); [done|].
    intros [k x] s Hx. unfold Spec.visitProp. cbn [fst snd].
    rewrite IH; [done| | |].
    + pose proof (depth_prop props _ Hx). simpl in *. lia.
    + apply (proj1 (wf_object props) Hwf) in Hx. done.
    + apply Forall_flat_map in Hn. rewrite Forall_forall in Hn. by apply (Hn _ Hx).
Qed.



(** The gap-filled [sunDocument], on which a second run changes nothing. *)
Example addMissingDisplayNames_sunDocument :
  (addMissingDisplayNames Examples.sunDocument ∅).1
  = JObject [("title", JString "Sun ");
             ("moons", JArray [JObject [("Title", JString "Moon");
                                        ("DisplayName", JString "x")];
                               JNull]);
             ("displayName", JString "Sun")].
Proof. vm_compute. reflexivity. Qed.

(** *** The injected display name *)

Lemma mapAccum_app {A B S} (f : A -> S -> B * S) (l1 l2 : list A) (s : S) :
  mapAccum f (l1 ++ l2) s
  = ((mapAccum f l1 s).1 ++ (mapAccum f l2 (mapAccum f l1 s).2).1,
     (mapAccum f l2 (mapAccum f l1 s).2).2).
Proof.
  revert s. induction l1 as [|x r IH]; intros s; simpl.
  - by destruct (mapAccum f l2 s).
  - destruct (f x s) as [y s1]. rewrite IH.
    destruct (mapAccum f r s1) as [ys s2]. simpl.
    by destruct (mapAccum f l2 s2).
Qed.

(** The gap-filler only adds entries to the index. *)
Lemma addMissing_index (d : nat) :
  forall v dn k e, depth v < d -> wf v = true ->
  dn !! k = Some e -> (addMissingDisplayNames v dn).2 !! k = Some e.
Proof.
  induction d as [|d IH]; intros v dn k e Hd Hwf Hk; [lia|].
  destruct v as [|b|x|s|items|props]; try done.
  - rewrite addMissing_array by done. cbn [snd].
    apply (mapAccum_state (fun dn => dn !! k = Some e)); [|done].
    intros x s Hx Hs. apply IH; [|by apply (proj1 (wf_array items) Hwf)|done].
    pose proof (depth_item items x Hx). lia.
  - rewrite addMissing_object by done. cbn zeta. cbn [snd].
    pose proof (fillNode_children props dn Hwf) as Hch.
    apply (mapAccum_state (fun dn => dn !! k = Some e)).
    + intros kv s Hkv Hs. unfold Spec.visitProp.
      rewrite Forall_forall in Hch. destruct (Hch kv Hkv) as [Hwfk Hdk].
      specialize (IH kv.2 s k e ltac:(simpl in *; lia) Hwfk Hs).
      by destruct (addMissingDisplayNames kv.2 s).
    + by apply fillNode_index.
Qed.

(** The gap-fill rule of section 4.4 on the current script, lines
    338-369: an object with a
    string title and no display-name key gets the property
    [displayName], written last, holding the trimmed display name of the
    index entry of the trimmed title, or the trimmed title itself when
    the index has no such entry, in which case the entry is added; the
    other properties are visited with the index so extended. *)
Theorem addMissingDisplayNames_injects (props : Props JsonValue)
    (displayNames : gmap string DisplayName) (s : string) :
  wf (JObject props) = true ->
  find isDisplayNameKey (keys props) = None ->
  titleOf props = Some s ->
  let t := trim s in
  let d := match displayNames !! t with
           | Some entry => trim (displayName entry)
           | None => t
           end in
  let displayNames1 := match displayNames !! t with
                       | Some _ => displayNames
                       | None => <[t := mkDisplayName t t]> displayNames
                       end in
  let children := mapAccum (Spec.visitProp addMissingDisplayNames) props displayNames1 in
  addMissingDisplayNames (JObject props) displayNames
  = (JObject (children.1 ++ [("displayName", JString d)]), children.2)
  /\ children.2 !! t
     = Some (match displayNames !! t with
             | Some entry => entry
             | None => mkDisplayName t t
             end).
Proof.
  intros Hwf Hdk Ht t d displayNames1 children.
  assert (fillNode props displayNames
          = (props ++ [("displayName", JString d)], displayNames1)) as Hnode.
  { unfold fillNode. unfold titleOf in Ht. rewrite Hdk.
    destruct (find isTitleKey (keys props)) as [tk|]; [|done].
    rewrite Ht. fold t. subst d displayNames1.
    assert ("displayName" ∉ keys props) as Hfresh
      by (by apply (find_keys_None isDisplayNameKey)).
    destruct (displayNames !! t); by rewrite set_absent. }
  split.
  - rewrite addMissing_object by done. cbn zeta. rewrite Hnode. cbn [fst snd].
    rewrite mapAccum_app. fold children. done.
  - assert (displayNames1 !! t
            = Some (match displayNames !! t with
                    | Some entry => entry
                    | None => mkDisplayName t t
                    end)) as H1.
    { subst displayNames1. destruct (displayNames !! t) eqn:E; [done|].
      by rewrite lookup_insert_eq. }
    subst children.
    apply (mapAccum_state (fun dn => dn !! t = Some _)); [|exact H1].
    intros kv s0 Hkv Hs. unfold Spec.visitProp.
    pose proof (addMissing_index (S (depth kv.2)) kv.2 s0 t _ ltac:(lia)
                  (proj2 (proj1 (wf_object props) Hwf) kv Hkv) Hs) as Hi.
    by destruct (addMissingDisplayNames kv.2 s0).
Qed.

Lemma addMissingDisplayNames_injects_witness :
  addMissingDisplayNames (JObject [("title", JString "Sun ")]) ∅
  = (JObject [("title", JString "Sun "); ("displayName", JString "Sun")],
     {["Sun" := mkDisplayName "Sun" "Sun"]}).
Proof.
  pose proof (addMissingDisplayNames_injects [("title", JString "Sun ")] ∅ "Sun "
                eq_refl eq_refl eq_refl) as [H _].
  rewrite H. vm_compute. reflexivity.
Defined.

(** The gap-fill default of section 8 on the current script. *)
Example addMissingDisplayNames_sun :
  (addMissingDisplayNames (JObject [("title", JString "Sun ")]) ∅).1
  = JObject [("title", JString "Sun "); ("displayName", JString "Sun")].
Proof. vm_compute. reflexivity. Qed.

(** C6. The older copy of the gap-filler, lines 729-757, trims neither
    the title nor the display name it reuses: on the document of the
    gap-fill default it injects the display name with the trailing
    space, and registers the untrimmed title. *)
Theorem legacy_addMissingDisplayNames_untrimmed :
  Legacy.addMissingDisplayNames (JObject [("title", JString "Sun ")]) ∅
  = (JObject [("title", JString "Sun "); ("displayName", JString "Sun ")],
     {["Sun " := mkDisplayName "Sun " "Sun "]})
  /\ (Legacy.addMissingDisplayNames (JObject [("title", JString "Sun ")]) ∅).1
     <> (addMissingDisplayNames (JObject [("title", JString "Sun ")]) ∅).1.
Proof. split; [vm_compute; reflexivity|]. vm_compute. discriminate. Qed.

End FillFacts.

(** ** The translation merge: [updateJsonWithTranslations] *)

Module MergeFacts.

Import JsFacts JsonFacts Page.

Lemma filter_filter {A} (f g : A -> bool) (l : list A) :
  List.filter f (List.filter g l) = List.filter (fun x => g x && f x) l.
Proof.
  induction l as [|x r IH]; simpl; [done|].
  destruct (g x); simpl; [|done]. destruct (f x); by rewrite IH.
Qed.

(** The deletion loop drops the display-name properties named in [ks]. *)
Lemma remove_filter (ks : list string) :
  forall obj : Props JsonValue,
  fold_left (fun obj k => if isDisplayNameKey k then remove k obj else obj) ks obj
  = List.filter (fun kv => negb (isDisplayNameKey kv.1 && bool_decide (kv.1 ∈ ks))) obj.
Proof.
  induction ks as [|k r IH]; intros obj; cbn [fold_left].
  - rewrite <- (filter_true obj) at 1. apply filter_ext. intros kv.
    rewrite bool_decide_eq_false_2 by apply not_elem_of_nil.
    by rewrite andb_false_r.
  - rewrite IH. destruct (isDisplayNameKey k) eqn:Ek.
    + unfold remove. rewrite filter_filter. apply filter_ext. intros [k' v]. simpl.
      destruct (String.eqb_spec k' k) as [->|Hne]; simpl.
      * rewrite Ek, bool_decide_eq_true_2; [done|left].
      * f_equal. f_equal. apply bool_decide_ext. rewrite elem_of_cons. intuition congruence.
    + apply filter_ext. intros [k' v]. simpl.
      destruct (String.eqb_spec k' k) as [->|Hne].
      * by rewrite Ek.
      * f_equal. f_equal. apply bool_decide_ext. rewrite elem_of_cons. intuition congruence.
Qed.

Lemma remove_all (obj : Props JsonValue) :
  fold_left (fun obj k => if isDisplayNameKey k then remove k obj else obj) (keys obj) obj
  = List.filter (fun kv => negb (isDisplayNameKey kv.1)) obj.
Proof.
  rewrite remove_filter. apply filter_ext_in. intros [k v] Hin. simpl.
  rewrite bool_decide_eq_true_2; [by rewrite andb_true_r|].
  unfold keys. apply list_elem_of_fmap. exists (k, v). split; [done|].
  by apply list_elem_of_In.
Qed.

Lemma keys_filter_displayName (obj : Props JsonValue) :
  "displayName" ∉ keys (List.filter (fun kv => negb (isDisplayNameKey kv.1)) obj).
Proof.
  unfold keys. intros Hin. apply list_elem_of_fmap in Hin as ([k v] & Hk & Hin).
  simpl in Hk. subst k. apply list_elem_of_In, filter_In in Hin as [_ Hin]. done.
Qed.

(** The statements of [traverse] on one object amount to [mergeProps]. *)
Lemma mergeNode_spec (translations : gmap string string) (props : Props JsonValue) :
  NoDup (keys props) -> mergeNode translations props = Spec.mergeProps translations props.
Proof.
  intros Hnd. unfold mergeNode, Spec.mergeProps, titleOf, displayNameOf.
  destruct (stringAt (find isTitleKey (keys props)) props) as [t|].
  - destruct (translations !! t) as [x|]; [|done].
    rewrite remove_all. apply set_absent, keys_filter_displayName.
  - destruct (find isDisplayNameKey (keys props)) as [dk|] eqn:Edk; [|done].
    destruct (stringAt (Some dk) props) as [d|]; [|done].
    apply set_present; [done|]. by apply (find_keys_Some isDisplayNameKey).
Qed.

Lemma mergeProps_NoDup (translations : gmap string string) (props : Props JsonValue) :
  NoDup (keys props) -> NoDup (keys (Spec.mergeProps translations props)).
Proof.
  intros Hnd. unfold Spec.mergeProps.
  destruct (titleOf props) as [t|].
  - destruct (translations !! t) as [x|]; [|done].
    rewrite keys_app. apply NoDup_app. split; [|split].
    + unfold keys. induction props as [|[k v] r IH]; simpl; [constructor|].
      apply NoDup_cons in Hnd as [Hk Hr]. specialize (IH Hr).
      destruct (isDisplayNameKey k); simpl; [done|].
      apply NoDup_cons. split; [|done]. intros Hin. apply Hk.
      apply list_elem_of_fmap in Hin as (kv & -> & Hin).
      apply list_elem_of_In, filter_In in Hin as [Hin _].
      unfold keys. apply list_elem_of_fmap. exists kv. split; [done|].
      by apply list_elem_of_In.
    + intros k Hk Hk'. apply list_elem_of_singleton in Hk' as ->.
      by apply keys_filter_displayName in Hk.
    + apply NoDup_singleton.
  - destruct (find isDisplayNameKey (keys props)) as [dk|]; [|done].
    destruct (displayNameOf props) as [d|]; [|done].
    replace (keys _) with (keys props); [done|].
    unfold keys. rewrite map_map. apply map_ext. intros [k v]. simpl.
    by destruct (String.eqb k dk).
Qed.

(** The properties after the merge are properties of the node, or new
    strings. *)
Lemma mergeProps_Forall (P : string * JsonValue -> Prop)
    (translations : gmap string string) (props : Props JsonValue) :
  Forall P props -> (forall k s, P (k, JString s)) ->
  Forall P (Spec.mergeProps translations props).
Proof.
  intros Hall Hs. unfold Spec.mergeProps.
  destruct (titleOf props) as [t|].
  - destruct (translations !! t) as [x|]; [|done].
    apply Forall_app. split; [|by repeat constructor].
    apply Forall_forall. intros kv Hin.
    apply list_elem_of_In, filter_In in Hin as [Hin _].
    rewrite Forall_forall in Hall. by apply Hall, list_elem_of_In.
  - destruct (find isDisplayNameKey (keys props)) as [dk|]; [|done].
    destruct (displayNameOf props) as [d|]; [|done].
    apply Forall_forall. intros kv Hin.
    apply list_elem_of_In, in_map_iff in Hin as ([k v] & <- & Hin). simpl.
    destruct (String.eqb k dk); [done|].
    rewrite Forall_forall in Hall. by apply Hall, list_elem_of_In.
Qed.

Lemma traverseFuel_object (n : nat) (translations : gmap string string)
    (props : Props JsonValue) :
  NoDup (keys props) ->
  traverseFuel (S n) translations (JObject props)
  = JObject
      (map (fun kv => (kv.1, if typeofObject kv.2
                             then traverseFuel n translations kv.2 else kv.2))
         (Spec.mergeProps translations props)).
Proof.
  intros Hnd. cbn [traverseFuel]. f_equal.
  rewrite mergeNode_spec by done.
  rewrite forKeys_map by auto using mergeProps_NoDup.
  apply map_ext_in. intros [k v] Hin. apply list_elem_of_In in Hin. cbn [fst snd].
  case_bool_decide as Hk; [done|].
  assert (Forall (fun kv => kv.1 ∈ keys props \/ typeofObject kv.2 = false)
            (Spec.mergeProps translations props)) as HF.
  { apply mergeProps_Forall; [|by right].
    apply Forall_forall. intros kv Hkv. left.
    unfold keys. apply list_elem_of_fmap. by exists kv. }
  rewrite Forall_forall in HF. destruct (HF _ Hin) as [?|Hty]; [done|].
  simpl in Hty. by rewrite Hty.
Qed.

(** The children after the merge are well formed and less deep than the
    node. *)
Lemma mergeProps_children (translations : gmap string string)
    (props : Props JsonValue) :
  wf (JObject props) = true ->
  Forall (fun kv => wf kv.2 = true /\ depth kv.2 < depth (JObject props))
    (Spec.mergeProps translations props).
Proof.
  intros Hwf. apply wf_object in Hwf as [_ Hwf].
  apply mergeProps_Forall.
  - apply Forall_forall. intros kv Hkv. split; [by apply Hwf|by apply depth_prop].
  - intros k s. split; [done|]. simpl. lia.
Qed.

Lemma traverseFuel_step (translations : gmap string string) (n : nat) :
  forall v, wf v = true -> depth v < n ->
  traverseFuel (S n) translations v = traverseFuel n translations v.
Proof.
  induction n as [|n IH]; intros v Hwf Hd; [lia|].
  destruct v as [|b|x|s|items|props]; try done.
  - cbn [traverseFuel]. f_equal. apply map_ext_in. intros x Hx.
    apply list_elem_of_In in Hx. apply IH.
    + by apply (proj1 (wf_array items) Hwf).
    + pose proof (depth_item items x Hx). lia.
  - pose proof (mergeProps_children translations props Hwf) as Hch.
    pose proof (proj1 (wf_object props) Hwf) as [Hnd _].
    rewrite !traverseFuel_object by done. f_equal.
    apply map_ext_in. intros kv Hkv. apply list_elem_of_In in Hkv.
    rewrite Forall_forall in Hch. destruct (Hch kv Hkv) as [Hwfk Hdk].
    destruct (typeofObject kv.2); [|done]. rewrite IH; [done|done|simpl in *; lia].
Qed.

Lemma traverseFuel_enough (translations : gmap string string) (n : nat)
    (v : JsonValue) :
  wf v = true -> depth v < n ->
  traverseFuel n translations v = traverse translations v.
Proof.
  intros Hwf. unfold traverse.
  induction n as [|n IH]; intros Hd; [lia|].
  destruct (decide (depth v < n)) as [Hlt|Hge].
  - rewrite traverseFuel_step by done. by apply IH.
  - by replace n with (depth v) by lia.
Qed.

Lemma traverse_primitive (translations : gmap string string) (v : JsonValue) :
  match v with JArray _ | JObject _ => False | _ => True end ->
  traverse translations v = v.
Proof. by destruct v. Qed.



(** The translation merge of section 8. *)
Example traverse_home :
  traverse {["Home" := "  Accueil  "]}
    (JObject [("title", JString "Home"); ("displayName", JString "Home")])
  = JObject [("title", JString "Home"); ("displayName", JString "Accueil")].
Proof. vm_compute. reflexivity. Qed.


End MergeFacts.

(** ** The index after a gap-fill and after a translation *)

Module IndexFacts.

Import JsFacts JsonFacts Page ExtractFacts.

(** Every entry of a freshly extracted index is backed by a node. *)
Lemma extract_backed (v : JsonValue) (t : string) (e : DisplayName) :
  extractDisplayNames v ∅ !! t = Some e ->
  title e = t
  /\ exists node, node ∈ nodes v /\ titleOf node = Some t
                  /\ displayNameOf node = Some (displayName e).
Proof.
  rewrite extract_lookup. unfold Spec.lastDisplayName.
  destruct (last (Spec.displayNamesFor t (nodes v))) as [d|] eqn:E;
    [|by rewrite lookup_empty].
  intros [= <-]. split; [done|]. simpl.
  apply last_Some_elem_of, displayNamesFor_elem in E as (node & Hin & Hl).
  exists node. split; [done|]. unfold Spec.labelOf in Hl.
  destruct (titleOf node) as [t'|]; [|done].
  destruct (displayNameOf node) as [d'|]; [|done]. by injection Hl as -> ->.
Qed.





End IndexFacts.

(** ** The batches of [translateTitles] *)

Module ServerFacts.

Import JsFacts Server.

Section Batches.

Variable translateText : string -> string -> option string.
Variable targetLang : string.

Lemma storeTranslated_other (t : string) (b : list string) :
  forall translated index tr (uc : TranslationCache),
  t ∉ b ->
  (storeTranslated targetLang b translated index tr uc).2 !! t = uc !! t.
Proof.
  induction b as [|title r IH]; intros translated index tr uc Hnot; [done|].
  apply not_elem_of_cons in Hnot as [Hne Hr].
  cbn [storeTranslated]. rewrite IH by done.
  rewrite lookup_insert_ne by done.
  destruct (uc !! title); [done|]. by rewrite lookup_insert_ne.
Qed.

(** [translateBatch] records its argument, and touches neither the
    pending batch nor the cache entries of other titles. *)
Lemma translateBatch_cases (b : list string) (st : Loop) :
  (exists st', translateBatch translateText targetLang b st = Returned st'
     /\ sent st' = sent st ++ [b] /\ batch st' = batch st
     /\ batchLength st' = batchLength st
     /\ forall t, t ∉ b -> updatedCache st' !! t = updatedCache st !! t)
  \/ translateBatch translateText targetLang b st = Thrown (sent st ++ [b]).
Proof.
  unfold translateBatch.
  destruct (translateText (join "||" b) targetLang) as [text|]; [left|by right].
  pose proof (fun t => storeTranslated_other t b (splitBars "" text) 0
                         (translations st) (updatedCache st)) as Hother.
  destruct (storeTranslated targetLang b (splitBars "" text) 0
              (translations st) (updatedCache st)) as [tr uc].
  eexists. split; [done|]. simpl. auto.
Qed.










End Batches.



End ServerFacts.

(** ** The gap-filler on the store: no write to what it is given *)

Module StoreFacts.

Import JsFacts JsonFacts Page FillFacts Store.

Lemma prefix_insert_ge (h0 h : Heap) (l : nat) (c : Cell) :
  h0 `prefix_of` h -> length h0 <= l -> h0 `prefix_of` <[l := c]> h.
Proof.
  intros [k ->] Hl. exists (<[l - length h0 := c]> k).
  by rewrite insert_app_r_alt.
Qed.

Lemma mapItems_prefix
    (visit : Val -> Heap -> gmap string DisplayName ->
             option (Val * Heap * gmap string DisplayName)) :
  (forall v h dn v' h' dn', visit v h dn = Some (v', h', dn') -> h `prefix_of` h') ->
  forall items h dn items' h' dn',
  mapItems visit items h dn = Some (items', h', dn') -> h `prefix_of` h'.
Proof.
  intros Hvisit. induction items as [|item rest IH]; intros h dn items' h' dn' Hrun.
  - by injection Hrun as <- <- <-.
  - cbn [mapItems] in Hrun.
    destruct (visit item h dn) as [[[v1 h1] dn1]|] eqn:E1; [|done].
    destruct (mapItems visit rest h1 dn1) as [[[r2 h2] dn2]|] eqn:E2; [|done].
    injection Hrun as <- <- <-.
    etrans; [exact (Hvisit _ _ _ _ _ _ E1)|exact (IH _ _ _ _ _ E2)].
Qed.

Lemma visitKey_prefix
    (visit : Val -> Heap -> gmap string DisplayName ->
             option (Val * Heap * gmap string DisplayName))
    (h0 : Heap) (obj : nat) :
  (forall v h dn v' h' dn', visit v h dn = Some (v', h', dn') -> h `prefix_of` h') ->
  length h0 <= obj ->
  forall ks h dn h' dn',
  h0 `prefix_of` h ->
  foldM (visitKey visit obj) ks (h, dn) = Some (h', dn') -> h0 `prefix_of` h'.
Proof.
  intros Hvisit Hobj. induction ks as [|k rest IH]; intros h dn h' dn' Hpre Hrun.
  - by injection Hrun as <- <-.
  - cbn [foldM] in Hrun.
    destruct (visitKey visit obj k (h, dn)) as [[h1 dn1]|] eqn:E1; [|done].
    apply (IH h1 dn1 h' dn'); [|done]. clear Hrun IH.
    unfold visitKey in E1.
    destruct (h !! obj) as [[|props]|]; try done.
    destruct (get k props) as [v|]; [|by injection E1 as <- <-].
    destruct (visit v h dn) as [[[v1 h2] dn2]|] eqn:E2; [|done].
    destruct (h2 !! obj) as [[|props2]|]; try done.
    injection E1 as <- <-. apply prefix_insert_ge; [|done].
    etrans; [exact Hpre|exact (Hvisit _ _ _ _ _ _ E2)].
Qed.

(** Whatever the store and the fuel, a run that returns has left every
    cell of the store it started from as it was. *)
Lemma addMissing_prefix (fuel : nat) :
  forall value h dn v' h' dn',
  Store.addMissingDisplayNames fuel value h dn = Some (v', h', dn') ->
  h `prefix_of` h'.
Proof.
  induction fuel as [|fuel IH]; intros value h dn v' h' dn' Hrun; [done|].
  cbn [Store.addMissingDisplayNames] in Hrun.
  destruct value as [|b|x|s|l]; try (by injection Hrun as <- <- <-).
  destruct (h !! l) as [[items|props]|]; [| |done].
  - cbn [alloc] in Hrun.
    destruct (mapItems (Store.addMissingDisplayNames fuel) items (h ++ [CArray []]) dn)
      as [[[items1 h1] dn1]|] eqn:E1; [|done].
    injection Hrun as <- <- <-.
    apply mapItems_prefix in E1; [|exact IH].
    apply prefix_insert_ge; [|done]. etrans; [|exact E1]. by exists [CArray []].
  - cbn [alloc] in Hrun.
    destruct (fillNode props dn) as [props1 dn1].
    destruct (foldM _ (keys props1) _) as [[h1 dn2]|] eqn:E1; [|done].
    injection Hrun as <- <- <-.
    eapply (visitKey_prefix _ h (length h)) in E1; [done|exact IH|done|].
    apply prefix_insert_ge; [|done]. by exists [CObject props].
Qed.

(** *** Reading documents out of the store *)

Lemma keeps_trans (n : nat) (h1 h2 h3 : Heap) :
  keeps n h1 h2 -> keeps n h2 h3 -> keeps n h1 h3.
Proof. intros H12 H23 l c Hl Hc. apply H23; [done|]. by apply H12. Qed.

Lemma keeps_mono (n m : nat) (h h' : Heap) :
  n <= m -> keeps n h h' -> keeps m h h'.
Proof. intros Hnm H l c Hl Hc. apply H; [lia|done]. Qed.

Lemma keeps_prefix (n : nat) (h h' : Heap) : h `prefix_of` h' -> keeps n h h'.
Proof. intros Hpre l c _ Hc. by eapply prefix_lookup_Some. Qed.

Lemma keeps_insert (n : nat) (h : Heap) (l : nat) (c : Cell) :
  l < n -> keeps n h (<[l := c]> h).
Proof. intros Hl l' c' Hl' Hc. rewrite list_lookup_insert_ne; [done|lia]. Qed.

Lemma load_array (f : nat) (h : Heap) (l : nat) (items : list Val)
    (ts : list JsonValue) :
  h !! l = Some (CArray items) ->
  Forall2 (fun v t => load f h v = Some t) items ts ->
  load (S f) h (VRef l) = Some (JArray ts).
Proof.
  intros Hl HF. cbn [load]. rewrite Hl.
  by rewrite (mapM_Some_2 (load f h) items ts HF).
Qed.

Lemma load_object (f : nat) (h : Heap) (l : nat) (props : Props Val)
    (tprops : Props JsonValue) :
  h !! l = Some (CObject props) ->
  Forall2 (denotes f h) props tprops ->
  load (S f) h (VRef l) = Some (JObject tprops).
Proof.
  intros Hl HF. cbn [load]. rewrite Hl.
  rewrite (mapM_Some_2 (fun kv => pair kv.1 <$> load f h kv.2) props tprops); [done|].
  eapply Forall2_impl; [exact HF|]. intros [k v] [k' t] [Hk Hv]. simpl in *.
  by rewrite Hv, Hk.
Qed.

(** What a reference denotes is an array or an object, read one level
    down with one unit of fuel less. *)
Lemma load_ref (f : nat) (h : Heap) (l : nat) (t : JsonValue) :
  load f h (VRef l) = Some t ->
  exists f', f = S f' /\
    ((exists items ts, h !! l = Some (CArray items) /\ t = JArray ts
        /\ Forall2 (fun v t => load f' h v = Some t) items ts)
     \/ (exists props tprops, h !! l = Some (CObject props) /\ t = JObject tprops
           /\ Forall2 (denotes f' h) props tprops)).
Proof.
  destruct f as [|f']; [done|]. cbn [load]. intros Hload. exists f'. split; [done|].
  destruct (h !! l) as [[items|props]|]; [| |done].
  - left. destruct (mapM (load f' h) items) as [ts|] eqn:E; [|done].
    injection Hload as <-. exists items, ts. split; [done|]. split; [done|].
    by apply mapM_Some_1.
  - right. destruct (mapM _ props) as [tprops|] eqn:E; [|done].
    injection Hload as <-. exists props, tprops. split; [done|]. split; [done|].
    apply mapM_Some_1 in E. eapply Forall2_impl; [exact E|].
    intros [k v] [k' t] H. simpl in *. unfold denotes. simpl.
    destruct (load f' h v) as [t0|]; [|done]. by injection H as <- <-.
Qed.

(** A document read from the store is read again from any store that
    has the same cells. *)
Lemma load_keeps (f : nat) :
  forall h h' v t, keeps 0 h h' -> load f h v = Some t -> load f h' v = Some t.
Proof.
  induction f as [|f IH]; intros h h' v t Hk Hload.
  - by destruct v.
  - destruct v as [|b|x|s|l]; try done.
    apply load_ref in Hload as (f' & [= <-] & [(items & ts & Hl & -> & HF)
                                              |(props & tprops & Hl & -> & HF)]).
    + apply (load_array f h' l items ts); [apply Hk; [lia|done]|].
      eapply Forall2_impl; [exact HF|]. intros v t. by apply IH.
    + apply (load_object f h' l props tprops); [apply Hk; [lia|done]|].
      eapply Forall2_impl; [exact HF|]. intros kv tkv [? ?]. split; [done|]. by eapply IH.
Qed.

Lemma load_stringOf (f : nat) (h : Heap) (v : Val) (t : JsonValue) :
  load f h v = Some t -> stringOf v = stringOf t.
Proof.
  destruct v as [|b|x|s|l]; try (destruct f; by intros [= <-]).
  intros H. apply load_ref in H as (f' & _ & [(? & ? & _ & -> & _)|(? & ? & _ & -> & _)]); done.
Qed.

Section Related.

Variable (f : nat) (h : Heap).

Lemma denotes_keys (props : Props Val) (tprops : Props JsonValue) :
  Forall2 (denotes f h) props tprops -> keys props = keys tprops.
Proof.
  intros HF. induction HF as [|kv tkv r tr [Hk _] _ IH]; simpl; [done|].
  by rewrite Hk, IH.
Qed.

Lemma denotes_stringAt (props : Props Val) (tprops : Props JsonValue)
    (key : option string) :
  Forall2 (denotes f h) props tprops -> stringAt key props = stringAt key tprops.
Proof.
  intros HF. destruct key as [k|]; [|done]. unfold stringAt.
  induction HF as [|[k1 v] [k2 t] r tr [Hk Hv] _ IH]; simpl in *; [done|].
  subst k2. destruct (String.eqb k1 k); [|done]. by eapply load_stringOf.
Qed.

Lemma denotes_set (props : Props Val) (tprops : Props JsonValue) (k s : string) :
  Forall2 (denotes f h) props tprops ->
  Forall2 (denotes f h) (set k (VString s) props) (set k (JString s) tprops).
Proof.
  intros HF. induction HF as [|[k1 v] [k2 t] r tr [Hk Hv] Hr IH]; simpl in *.
  - constructor; [|constructor]. split; [done|]. by destruct f.
  - subst k2. destruct (String.eqb k1 k).
    + constructor; [|done]. split; [done|]. by destruct f.
    + constructor; [by split|done].
Qed.

(** The node rule acts alike on an object of the store and on the
    document node it denotes. *)
Lemma fillNode_denotes (props : Props Val) (tprops : Props JsonValue)
    (dn : gmap string DisplayName) :
  Forall2 (denotes f h) props tprops ->
  Forall2 (denotes f h) (fillNode props dn).1 (fillNode tprops dn).1
  /\ (fillNode props dn).2 = (fillNode tprops dn).2.
Proof.
  intros HF. unfold fillNode.
  rewrite (denotes_keys props tprops HF).
  rewrite !(denotes_stringAt props tprops _ HF).
  destruct (find isTitleKey (keys tprops)) as [tk|];
    destruct (find isDisplayNameKey (keys tprops)) as [dk|];
    repeat case_match; simpl; auto using denotes_set.
Qed.

End Related.

(** *** The run on the store against the gap-filler on documents *)

Lemma visitKey_step
    (visit : Val -> Heap -> gmap string DisplayName ->
             option (Val * Heap * gmap string DisplayName))
    (obj : nat) (k : string) (h h1 : Heap) (dn dn1 : gmap string DisplayName)
    (props props1 : Props Val) (v v1 : Val) :
  h !! obj = Some (CObject props) -> get k props = Some v ->
  visit v h dn = Some (v1, h1, dn1) ->
  h1 !! obj = Some (CObject props1) ->
  visitKey visit obj k (h, dn) = Some (<[obj := CObject (set k v1 props1)]> h1, dn1).
Proof. intros H1 H2 H3 H4. unfold visitKey. by rewrite H1, H2, H3, H4. Qed.

Section Refine.

(** [n] is the fuel of the visits of the children, [f] the fuel that
    reads the children, and [visits] what is known of such visits. *)
Variables n f : nat.

Hypothesis visits :
  forall value h t dn,
  load f h value = Some t -> wf t = true -> depth t < n ->
  exists v' h',
    Store.addMissingDisplayNames n value h dn
    = Some (v', h', (Page.addMissingDisplayNames t dn).2)
    /\ forall h'', keeps (length h) h' h'' ->
         load f h'' v' = Some (Page.addMissingDisplayNames t dn).1.

Lemma items_refine (h0 : Heap) (items : list Val) (ts : list JsonValue) :
  Forall2 (fun v t => load f h0 v = Some t /\ wf t = true /\ depth t < n) items ts ->
  forall hk dnk, h0 `prefix_of` hk ->
  exists items' hk',
    mapItems (Store.addMissingDisplayNames n) items hk dnk
    = Some (items', hk', (mapAccum Page.addMissingDisplayNames ts dnk).2)
    /\ forall h'', keeps (length hk) hk' h'' ->
         Forall2 (fun v' t' => load f h'' v' = Some t') items'
           (mapAccum Page.addMissingDisplayNames ts dnk).1.
Proof.
  intros HF. induction HF as [|v t r tr (Hv & Hwf & Hd) _ IH]; intros hk dnk Hpre.
  - exists [], hk. split; [done|]. intros h'' _. constructor.
  - assert (load f hk v = Some t) as Hvk
      by (eapply load_keeps; [by apply keeps_prefix|done]).
    destruct (visits v hk t dnk Hvk Hwf Hd) as (v1 & h1 & E1 & Hload1).
    pose proof (addMissing_prefix _ _ _ _ _ _ _ E1) as Hpre1.
    destruct (IH h1 (Page.addMissingDisplayNames t dnk).2 ltac:(by etrans))
      as (items' & h2 & E2 & Hload2).
    pose proof (mapItems_prefix _ (addMissing_prefix n) _ _ _ _ _ _ E2) as Hpre2.
    exists (v1 :: items'), h2. cbn [mapItems mapAccum]. rewrite E1, E2.
    destruct (Page.addMissingDisplayNames t dnk) as [t1 d1]. cbn [fst snd] in *.
    destruct (mapAccum Page.addMissingDisplayNames tr d1) as [ts' d2]. cbn [fst snd] in *.
    split; [done|]. intros h'' Hk. constructor.
    + apply Hload1. eapply keeps_trans; [by apply keeps_prefix|done].
    + apply Hload2. eapply keeps_mono; [|done]. by apply prefix_length.
Qed.

Lemma props_refine (h0 : Heap) (obj : nat) (rest : Props Val)
    (trest : Props JsonValue) :
  length h0 <= obj ->
  Forall2 (fun kv tkv => denotes f h0 kv tkv /\ wf tkv.2 = true /\ depth tkv.2 < n)
    rest trest ->
  forall done hk dnk,
  NoDup (keys (done ++ rest)) -> h0 `prefix_of` hk ->
  hk !! obj = Some (CObject (done ++ rest)) ->
  exists rest' hk',
    foldM (visitKey (Store.addMissingDisplayNames n) obj) (keys rest) (hk, dnk)
    = Some (hk', (mapAccum (Spec.visitProp Page.addMissingDisplayNames) trest dnk).2)
    /\ hk' !! obj = Some (CObject (done ++ rest'))
    /\ h0 `prefix_of` hk' /\ keeps (S obj) hk hk'
    /\ forall h'', keeps (length hk) hk' h'' ->
         Forall2 (denotes f h'') rest'
           (mapAccum (Spec.visitProp Page.addMissingDisplayNames) trest dnk).1.
Proof.
  intros Hobj HF.
  induction HF as [|[k v] [k' t] r tr ([Hk Hv] & Hwf & Hd) _ IH];
    intros done hk dnk Hnd Hpre Hcell.
  - exists [], hk. split; [done|]. split; [done|]. split; [done|].
    split; [by intros l c _ ?|]. intros h'' _. constructor.
  - simpl in Hk, Hv, Hwf, Hd. subst k'.
    assert (obj < length hk) as Hlt by (by eapply lookup_lt_Some).
    assert (k ∉ keys done) as Hfresh.
    { rewrite keys_app in Hnd. apply NoDup_app in Hnd as (_ & Hdisj & _).
      intros Hin. apply (Hdisj k Hin). left. }
    assert (get k (done ++ (k, v) :: r) = Some v) as Hget.
    { rewrite get_app. replace (get k done) with (@None Val)
        by (symmetry; by apply get_None). simpl. by rewrite String.eqb_refl. }
    assert (load f hk v = Some t) as Hvk
      by (eapply load_keeps; [by apply keeps_prefix|done]).
    destruct (visits v hk t dnk Hvk Hwf Hd) as (v1 & h1 & E1 & Hload1).
    pose proof (addMissing_prefix _ _ _ _ _ _ _ E1) as Hpre1.
    pose proof (prefix_lookup_Some _ _ _ _ Hcell Hpre1) as Hcell1.
    pose proof (visitKey_step _ obj k hk h1 dnk _ _ _ v v1 Hcell Hget E1 Hcell1) as Estep.
    rewrite set_middle in Estep by done.
    set (h1' := <[obj := CObject (done ++ (k, v1) :: r)]> h1) in *.
    assert (length hk <= length h1) as Hlen by (by apply prefix_length).
    destruct (IH (done ++ [(k, v1)]) h1' (Page.addMissingDisplayNames t dnk).2)
      as (rest' & hk' & E2 & Hcell2 & Hpre2 & Hkeep2 & Hload2).
    { rewrite <- app_assoc. simpl. by rewrite keys_app in *. }
    { apply prefix_insert_ge; [by etrans|done]. }
    { subst h1'. rewrite <- app_assoc. simpl. apply list_lookup_insert_eq. lia. }
    exists ((k, v1) :: rest'), hk'. cbn [keys map fst foldM mapAccum].
    fold (keys r). rewrite Estep.
    unfold Spec.visitProp at 1 3. cbn [fst snd].
    destruct (Page.addMissingDisplayNames t dnk) as [t1 d1]. cbn [fst snd] in *.
    rewrite E2.
    destruct (mapAccum (Spec.visitProp Page.addMissingDisplayNames) tr d1) as [ts' d2].
    cbn [fst snd] in *.
    assert (keeps (S obj) h1 h1') as Hk1 by (apply keeps_insert; lia).
    split; [done|]. split; [by rewrite <- app_assoc in Hcell2|]. split; [done|].
    split.
    { eapply keeps_trans; [by apply keeps_prefix|].
      eapply keeps_trans; [exact Hk1|done]. }
    intros h'' Hk''. constructor.
    + split; [done|]. simpl. apply Hload1.
      eapply keeps_trans; [|exact Hk''].
      eapply keeps_mono; [|eapply keeps_trans; [exact Hk1|exact Hkeep2]]. lia.
    + apply Hload2. eapply keeps_mono; [|exact Hk'']. subst h1'.
      rewrite length_insert. lia.
Qed.

End Refine.

Lemma Forall2_impl_elem_r {A B} (R R' : A -> B -> Prop) (l : list A) (l' : list B) :
  Forall2 R l l' -> (forall x y, y ∈ l' -> R x y -> R' x y) -> Forall2 R' l l'.
Proof.
  intros HF. induction HF as [|x y r r' Hxy _ IH]; intros H; constructor.
  - apply H; [left|done].
  - apply IH. intros a b Hb. apply H. by right.
Qed.

(** With fuel above the depth of the document that [value] denotes, the
    run on the store returns; it returns the index of the gap-filler on
    documents, and a value that denotes its document in every store
    that keeps the cells allocated by the run. *)
Lemma run_refines (n : nat) :
  forall f value h t dn,
  load f h value = Some t -> wf t = true -> depth t < n ->
  exists v' h',
    Store.addMissingDisplayNames n value h dn
    = Some (v', h', (Page.addMissingDisplayNames t dn).2)
    /\ forall h'', keeps (length h) h' h'' ->
         load f h'' v' = Some (Page.addMissingDisplayNames t dn).1.
Proof.
  induction n as [|n IH]; intros f value h t dn Hload Hwf Hd; [lia|].
  destruct value as [|b|x|s|l].
  1-4: destruct f; injection Hload as <-; eexists _, h;
    (split; [reflexivity|]); intros h'' _; reflexivity.
  apply load_ref in Hload as (f' & -> & [(items & ts & Hl & -> & HF)
                                       |(props & tprops & Hl & -> & HF)]).
  - rewrite addMissing_array by done. cbn [fst snd].
    assert (Forall2 (fun v t => load f' h v = Some t /\ wf t = true /\ depth t < n)
              items ts) as HFF.
    { eapply Forall2_impl_elem_r; [exact HF|]. intros v t Ht Hv.
      split; [done|]. split; [by apply (proj1 (wf_array ts) Hwf)|].
      pose proof (depth_item ts t Ht). lia. }
    destruct (items_refine n f' (IH f') h items ts HFF (h ++ [CArray []]) dn)
      as (items' & hf & E & Hload'); [by exists [CArray []]|].
    pose proof (mapItems_prefix _ (addMissing_prefix n) _ _ _ _ _ _ E) as Hpre.
    apply prefix_length in Hpre. rewrite length_app in Hpre. simpl in Hpre.
    exists (VRef (length h)), (<[length h := CArray items']> hf).
    cbn [Store.addMissingDisplayNames]. rewrite Hl. cbn [alloc]. rewrite E.
    split; [done|]. intros h'' Hk. apply (load_array f' h'' _ items').
    + apply Hk; [done|]. apply list_lookup_insert_eq. lia.
    + apply Hload'. rewrite length_app. simpl.
      apply (keeps_trans _ _ (<[length h := CArray items']> hf));
        [apply keeps_insert; lia|].
      eapply keeps_mono; [|exact Hk]. lia.
  - rewrite addMissing_object by done. cbn zeta. cbn [fst snd].
    destruct (fillNode_denotes f' h props tprops dn HF) as [HF1 Hdn].
    pose proof (fillNode_children tprops dn Hwf) as Hch.
    pose proof (fillNode_NoDup tprops dn (proj1 (proj1 (wf_object tprops) Hwf))) as Hnd.
    destruct (fillNode props dn) as [props1 dn1] eqn:Efill.
    destruct (fillNode tprops dn) as [tprops1 tdn1] eqn:Etfill.
    cbn [fst snd] in *. subst tdn1.
    assert (Forall2 (fun kv tkv => denotes f' h kv tkv /\ wf tkv.2 = true
                                   /\ depth tkv.2 < n) props1 tprops1) as HFF.
    { eapply Forall2_impl_elem_r; [exact HF1|]. intros kv tkv Ht Hkv.
      rewrite Forall_forall in Hch. destruct (Hch tkv Ht) as [? ?].
      split; [done|]. split; [done|]. lia. }
    rewrite <- (denotes_keys f' h props1 tprops1 HF1) in Hnd.
    set (h2 := <[length h := CObject props1]> (h ++ [CObject props])).
    destruct (props_refine n f' (IH f') h (length h) props1 tprops1 ltac:(done) HFF
                [] h2 dn1) as (rest' & hk' & E & Hcell & Hpre & Hkeep & Hload').
    { done. }
    { apply prefix_insert_ge; [by exists [CObject props]|done]. }
    { subst h2. apply list_lookup_insert_eq. rewrite length_app. simpl. lia. }
    exists (VRef (length h)), hk'.
    cbn [Store.addMissingDisplayNames]. rewrite Hl. cbn [alloc]. rewrite Efill.
    fold h2. rewrite E.
    split; [done|]. intros h'' Hk. apply (load_object f' h'' _ rest').
    + apply Hk; [done|]. exact Hcell.
    + apply Hload'. eapply keeps_mono; [|exact Hk]. subst h2.
      rewrite length_insert, length_app. simpl. lia.
Qed.

(** On a reference the run returns a reference to a new cell. *)
Lemma addMissing_fresh (fuel : nat) (l : nat) (h h' : Heap)
    (dn dn' : gmap string DisplayName) (v' : Val) :
  Store.addMissingDisplayNames fuel (VRef l) h dn = Some (v', h', dn') ->
  v' = VRef (length h).
Proof.
  destruct fuel as [|fuel]; [done|]. cbn [Store.addMissingDisplayNames].
  destruct (h !! l) as [[items|props]|]; [| |done]; cbn [alloc].
  - destruct (mapItems _ items _ dn) as [[[? ?] ?]|]; [|done]. by intros [= <- _ _].
  - destruct (fillNode props dn) as [props1 dn1].
    destruct (foldM _ _ _) as [[? ?]|]; [|done]. by intros [= <- _ _].
Qed.

(** C10. [addMissingDisplayNames] writes to no object or array that
    exists when it is called.  On a store value that denotes a
    well-formed document it returns; every cell of the store is then as
    it was, so the argument denotes the same document as before; the
    returned value denotes the gap-filled document; and when the
    argument is an array or an object the returned value is a new
    one. *)
Theorem addMissingDisplayNames_copies (f : nat) (h : Heap) (value : Val)
    (t : JsonValue) (displayNames : gmap string DisplayName) :
  load f h value = Some t ->
  wf t = true ->
  exists v' h',
    Store.addMissingDisplayNames (S (depth t)) value h displayNames
    = Some (v', h', (Page.addMissingDisplayNames t displayNames).2)
    /\ (forall l c, h !! l = Some c -> h' !! l = Some c)
    /\ load f h' value = Some t
    /\ load f h' v' = Some (Page.addMissingDisplayNames t displayNames).1
    /\ (forall l, value = VRef l -> v' = VRef (length h) /\ h !! length h = None).
Proof.
  intros Hload Hwf.
  destruct (run_refines (S (depth t)) f value h t displayNames Hload Hwf ltac:(lia))
    as (v' & h' & E & Hres).
  pose proof (addMissing_prefix _ _ _ _ _ _ _ E) as Hpre.
  exists v', h'. split; [done|]. split; [|split; [|split]].
  - intros l c Hc. by eapply prefix_lookup_Some.
  - eapply load_keeps; [by apply keeps_prefix|done].
  - apply Hres. by intros l c _ ?.
  - intros l ->. split; [by eapply addMissing_fresh|].
    apply lookup_ge_None. lia.
Qed.

Lemma addMissingDisplayNames_copies_witness :
  exists v' h',
    Store.addMissingDisplayNames 4 (VRef 0) sharedHeap ∅
    = Some (v', h', {["Sun" := mkDisplayName "Sun" "Sun"]})
    /\ load 3 h' (VRef 0) = load 3 sharedHeap (VRef 0).
Proof.
  destruct (addMissingDisplayNames_copies 3 sharedHeap (VRef 0)
              (JObject [("title", JString "Sun ");
                        ("first", JArray [JObject [("Title", JString "Moon");
                                                   ("DisplayName", JString " x ")];
                                          JNull]);
                        ("second", JArray [JObject [("Title", JString "Moon");
                                                    ("DisplayName", JString " x ")];
                                           JNull])])
              ∅ eq_refl eq_refl) as (v' & h' & E & _ & Hsame & _).
  exists v', h'. split; [exact E|]. rewrite Hsame. reflexivity.
Defined.

(** On [sharedHeap] the run allocates five cells and leaves the three it
    was given as they were; the copy holds the injected and the trimmed
    display names. *)
Example addMissingDisplayNames_shared :
  match Store.addMissingDisplayNames 4 (VRef 0) sharedHeap ∅ with
  | Some (v', h', _) =>
      v' = VRef 3 /\ take 3 h' = sharedHeap /\ length h' = 8
      /\ load 3 h' v'
         = Some (JObject [("title", JString "Sun ");
                          ("first", JArray [JObject [("Title", JString "Moon");
                                                     ("DisplayName", JString "x")];
                                            JNull]);
                          ("second", JArray [JObject [("Title", JString "Moon");
                                                      ("DisplayName", JString "x")];
                                             JNull]);
                          ("displayName", JString "Sun")])
  | None => False
  end.
Proof. vm_compute. repeat split. Qed.

End StoreFacts.


(** * Further properties of the page script *)

(** ** The titles of a document: [extractTitles] *)

Module TitleFacts.

Import JsFacts JsonFacts Page ExtractFacts.

Lemma collect_node (obj : Props JsonValue) (titles : list string) :
  match find isTitleKey (keys obj) with
  | Some titleKey =>
      match get titleKey obj with
      | Some (JString t) => addTitle t titles
      | _ => titles
      end
  | None => titles
  end
  = match titleOf obj with
    | Some t => addTitle t titles
    | None => titles
    end.
Proof.
  unfold titleOf, stringAt. destruct (find isTitleKey (keys obj)) as [tk|]; [|done].
  by destruct (get tk obj) as [[| | |t| |]|].
Qed.

(** [extractTitles] adds the titles of the nodes in pre-order. *)
Lemma collect_titlesOf (v : JsonValue) :
  forall titles,
  collectTitles v titles
  = fold_left (fun acc t => addTitle t acc) (Spec.titlesOf v) titles.
Proof.
  unfold Spec.titlesOf.
  induction v as [|b|x|s|items IH|props IH] using JsonValue_ind; intros titles; try done.
  - cbn [collectTitles nodes]. revert titles.
    induction IH as [|x r Hx _ IHr]; intros titles; [done|].
    cbn [fold_left flat_map]. rewrite omap_app, fold_left_app, <- Hx. apply IHr.
  - cbn [collectTitles nodes]. rewrite collect_node.
    change (omap titleOf (props :: ?l))
      with (match titleOf props with Some t => t :: omap titleOf l | None => omap titleOf l end).
    assert (forall acc,
      fold_left (fun a kv => collectTitles kv.2 a) props acc
      = fold_left (fun a t => addTitle t a)
          (omap titleOf (flat_map (fun kv => nodes kv.2) props)) acc) as Hch.
    { induction IH as [|[k x] r Hx _ IHr]; intros acc; [done|].
      cbn [fold_left flat_map snd]. rewrite omap_app, fold_left_app, <- Hx. apply IHr. }
    rewrite Hch. by destruct (titleOf props).
Qed.

Lemma addTitle_spec (t : string) (titles : list string) :
  NoDup titles ->
  NoDup (addTitle t titles) /\ forall u, u ∈ addTitle t titles <-> u = t \/ u ∈ titles.
Proof.
  intros Hnd. unfold addTitle. case_bool_decide as Hin.
  - split; [done|]. intros u. split; [by right|]. by intros [->|?].
  - split.
    + apply NoDup_app. split; [done|]. split; [|apply NoDup_singleton].
      intros u Hu Hu'. by apply list_elem_of_singleton in Hu' as ->.
    + intros u. rewrite elem_of_app, list_elem_of_singleton. tauto.
Qed.

Lemma fold_addTitle (l : list string) :
  forall titles, NoDup titles ->
  NoDup (fold_left (fun acc t => addTitle t acc) l titles)
  /\ forall u, u ∈ fold_left (fun acc t => addTitle t acc) l titles
               <-> u ∈ titles \/ u ∈ l.
Proof.
  induction l as [|t r IH]; intros titles Hnd; cbn [fold_left].
  - split; [done|]. intros u. rewrite elem_of_nil. tauto.
  - destruct (addTitle_spec t titles Hnd) as [Hnd1 Hin1].
    destruct (IH (addTitle t titles) Hnd1) as [Hnd2 Hin2].
    split; [done|]. intros u. rewrite Hin2, Hin1, elem_of_cons. tauto.
Qed.

Lemma titlesOf_elem (v : JsonValue) (t : string) :
  t ∈ Spec.titlesOf v <-> exists node, node ∈ nodes v /\ titleOf node = Some t.
Proof. unfold Spec.titlesOf. apply list_elem_of_omap. Qed.

(** X1. [extractTitles] returns pairwise distinct titles, and a string
    is among them exactly when it is the title of some object node of
    the document. *)
Theorem extractTitles_distinct_complete (obj : JsonValue) :
  NoDup (extractTitles obj)
  /\ forall t, t ∈ extractTitles obj
       <-> exists node, node ∈ nodes obj /\ titleOf node = Some t.
Proof.
  unfold extractTitles. rewrite collect_titlesOf.
  destruct (fold_addTitle (Spec.titlesOf obj) [] (NoDup_nil_2)) as [Hnd Hin].
  split; [done|]. intros t. rewrite Hin, elem_of_nil, titlesOf_elem. tauto.
Qed.

(** The keys of an extracted index are titles of the document. *)
Lemma extract_key_title (v : JsonValue) (t : string) (e : DisplayName) :
  extractDisplayNames v ∅ !! t = Some e -> t ∈ extractTitles v.
Proof.
  intros H. apply IndexFacts.extract_backed in H as (_ & node & Hin & Ht & _).
  apply extractTitles_distinct_complete. by exists node.
Qed.

(** X2. After [parseJson] on an input that parses, whatever the state
    was, the document is the parsed one and the index holds no stale
    entry: each of its keys is a title of the new document, the entry
    carries that title, and some node has that title and display name. *)
Theorem parseJson_rebuilds_index (JSON_parse : string -> option JsonValue)
    (JSON_stringify : JsonValue -> string) (input : string) (s : State)
    (parsed : JsonValue) :
  JSON_parse input = Some parsed ->
  let s' := parseJson JSON_parse JSON_stringify input s in
  parsedJson s' = parsed
  /\ displayNames s' = extractDisplayNames parsed ∅
  /\ forall t e, displayNames s' !! t = Some e ->
       t ∈ extractTitles parsed /\ title e = t
       /\ exists node, node ∈ nodes parsed /\ titleOf node = Some t
                       /\ displayNameOf node = Some (displayName e).
Proof.
  intros Hparse s'.
  assert (parsedJson s' = parsed /\ displayNames s' = extractDisplayNames parsed ∅)
    as [Hpj Hdn].
  { subst s'. unfold parseJson. rewrite Hparse. unfold updateJsonDisplay. cbn.
    by destruct (truthy parsed && typeofObject parsed). }
  split; [done|]. split; [done|]. intros t e. rewrite Hdn. intros He.
  split; [by eapply extract_key_title|]. by apply IndexFacts.extract_backed.
Qed.

Lemma parseJson_rebuilds_index_witness :
  displayNames (parseJson (fun _ => Some Examples.repeatedTitle) (fun _ => "")
                  "[]" Examples.homeState)
  = extractDisplayNames Examples.repeatedTitle ∅.
Proof.
  apply (parseJson_rebuilds_index (fun _ => Some Examples.repeatedTitle) (fun _ => "")
           "[]" Examples.homeState Examples.repeatedTitle eq_refl).
Defined.

(** X3. [translateDisplayNames] changes nothing when the answer of the
    endpoint is not ok, and, whatever the answer, when no object node of
    the document has a string title. *)
Theorem translateDisplayNames_nothing_to_do (JSON_stringify : JsonValue -> string)
    (response : option (gmap string string)) (s : State) :
  response = None
  \/ (forall node, node ∈ nodes (parsedJson s) -> titleOf node = None) ->
  translateDisplayNames JSON_stringify response s = s.
Proof.
  intros H. unfold translateDisplayNames.
  destruct (String.eqb (selectedLanguage s) ""); [done|].
  destruct (negb _); [done|].
  destruct (extractTitles (parsedJson s)) as [|t ts] eqn:E; [done|]. cbn [length Nat.eqb].
  destruct H as [->|Hnone]; [done|]. exfalso.
  assert (t ∈ extractTitles (parsedJson s)) as Ht by (rewrite E; left).
  apply extractTitles_distinct_complete in Ht as (node & Hin & Hnode).
  by rewrite (Hnone node Hin) in Hnode.
Qed.

Lemma translateDisplayNames_nothing_to_do_witness :
  translateDisplayNames (fun _ => "") (Some {["Home" := "Accueil"]})
    (mkState "" (JArray [JObject [("displayName", JString "Home")]; JString "Home"])
       ∅ None "fr")
  = mkState "" (JArray [JObject [("displayName", JString "Home")]; JString "Home"])
      ∅ None "fr".
Proof.
  apply translateDisplayNames_nothing_to_do. right.
  intros node Hin. apply list_elem_of_In in Hin. vm_compute in Hin.
  destruct Hin as [<-|[]]. reflexivity.
Defined.

End TitleFacts.

(** ** More on the synchroniser *)

Module RenameFacts.

Import JsFacts JsonFacts Page ExtractFacts UpdateFacts TitleFacts.

Lemma title_not_displayName (k : string) :
  isTitleKey k = true -> isDisplayNameKey k = false.
Proof.
  unfold isTitleKey, isDisplayNameKey. intros H. apply String.eqb_eq in H.
  by rewrite H.
Qed.

Lemma rename_stringOf (oldValue newValue : string) (v : JsonValue) :
  stringOf (Spec.renameDisplayName oldValue newValue v) = stringOf v.
Proof. by destruct v. Qed.

Lemma titleOf_renamed (oldValue newValue : string) (obj : Props JsonValue) :
  titleOf (Spec.renamedProps oldValue newValue obj) = titleOf obj.
Proof.
  unfold titleOf. rewrite keys_renamedProps.
  destruct (find isTitleKey (keys obj)) as [tk|] eqn:E; [|done].
  apply find_keys_Some in E as [_ Htk]. unfold stringAt, Spec.renamedProps.
  rewrite (get_map_values
    (fun k x => if isDisplayNameKey k && strictEq x oldValue
                then JString newValue
                else Spec.renameDisplayName oldValue newValue x)).
  rewrite (title_not_displayName tk Htk). simpl.
  destruct (get tk obj) as [x|]; [|done]. simpl. apply rename_stringOf.
Qed.

Lemma displayNameOf_renamed (oldValue newValue : string) (obj : Props JsonValue) :
  displayNameOf (Spec.renamedProps oldValue newValue obj)
  = (fun d => if String.eqb d oldValue then newValue else d) <$> displayNameOf obj.
Proof.
  unfold displayNameOf. rewrite keys_renamedProps.
  destruct (find isDisplayNameKey (keys obj)) as [dk|] eqn:E; [|done].
  apply find_keys_Some in E as [_ Hdk]. unfold stringAt, Spec.renamedProps.
  rewrite (get_map_values
    (fun k x => if isDisplayNameKey k && strictEq x oldValue
                then JString newValue
                else Spec.renameDisplayName oldValue newValue x)).
  rewrite Hdk. simpl. destruct (get dk obj) as [x|]; [|done]. simpl.
  destruct x as [|b|n|d|items|props]; try done. simpl.
  by destruct (String.eqb d oldValue).
Qed.

Lemma displayNamesFor_renamed (oldValue newValue t : string)
    (objs : list (Props JsonValue)) :
  Spec.displayNamesFor t (map (Spec.renamedProps oldValue newValue) objs)
  = map (fun d => if String.eqb d oldValue then newValue else d)
      (Spec.displayNamesFor t objs).
Proof.
  induction objs as [|obj r IH]; [done|].
  cbn [map]. rewrite !displayNamesFor_cons, IH.
  unfold Spec.labelOf. rewrite titleOf_renamed, displayNameOf_renamed.
  destruct (titleOf obj) as [t'|]; [|done].
  destruct (displayNameOf obj) as [d|]; [|done]. simpl.
  by destruct (String.eqb t' t).
Qed.

(** Extracting after a rename is renaming the extracted entries. *)
Lemma extract_rename (oldValue newValue : string) (v : JsonValue) (t : string) :
  extractDisplayNames (Spec.renameDisplayName oldValue newValue v) ∅ !! t
  = Spec.renamedEntry oldValue newValue <$> extractDisplayNames v ∅ !! t.
Proof.
  rewrite !extract_lookup, nodes_rename. unfold Spec.lastDisplayName.
  rewrite displayNamesFor_renamed.
  change (map ?f ?l) with (f <$> l). rewrite fmap_last.
  destruct (last (Spec.displayNamesFor t (nodes v))) as [d|]; [done|].
  by rewrite lookup_empty.
Qed.

(** X4. After [updateDisplayName] on a title of the index, extracting
    the index again from the document gives the extraction of the old
    document in which every display name equal to the old display name
    of the title became the new value.  So when the index was the
    extraction of the document, the entry of the edited title still
    agrees with the document. *)
Theorem updateDisplayName_then_extract (JSON_stringify : JsonValue -> string)
    (title newValue : string) (s : State) (entry : DisplayName) :
  wf (parsedJson s) = true ->
  displayNames s !! title = Some entry ->
  let s' := updateDisplayName JSON_stringify title newValue s in
  (forall t, extractDisplayNames (parsedJson s') ∅ !! t
             = Spec.renamedEntry (displayName entry) newValue
                 <$> extractDisplayNames (parsedJson s) ∅ !! t)
  /\ (displayNames s = extractDisplayNames (parsedJson s) ∅ ->
      extractDisplayNames (parsedJson s') ∅ !! title = displayNames s' !! title).
Proof.
  intros Hwf Hentry s'.
  assert (parsedJson s' = Spec.renameDisplayName (displayName entry) newValue (parsedJson s)
          /\ displayNames s' !! title = Some (mkDisplayName (Page.title entry) newValue))
    as [Hpj Hdn].
  { subst s'. unfold updateDisplayName. rewrite Hentry.
    unfold updateJsonDisplay. cbn [parsedJson displayNames withParsedJson withDisplayNames].
    rewrite updateJson_rename by done.
    destruct (truthy _ && typeofObject _); cbn; by rewrite lookup_insert_eq. }
  split.
  - intros t. rewrite Hpj. apply extract_rename.
  - intros Hsync. rewrite Hpj, extract_rename, <- Hsync, Hentry, Hdn. simpl.
    unfold Spec.renamedEntry. by rewrite String.eqb_refl.
Qed.

Lemma updateDisplayName_then_extract_witness :
  extractDisplayNames
    (parsedJson (updateDisplayName (fun _ => "") "A" "Y" Examples.collisionState)) ∅
  !! "B"
  = Some (mkDisplayName "B" "Y").
Proof.
  destruct (updateDisplayName_then_extract (fun _ => "") "A" "Y" Examples.collisionState
              (mkDisplayName "A" "X") eq_refl eq_refl) as [H _].
  rewrite H. vm_compute. reflexivity.
Defined.

Lemma titlesOf_rename (oldValue newValue : string) (v : JsonValue) :
  Spec.titlesOf (Spec.renameDisplayName oldValue newValue v) = Spec.titlesOf v.
Proof.
  unfold Spec.titlesOf. rewrite nodes_rename.
  induction (nodes v) as [|obj r IH]; [done|].
  cbn [map]. change (omap titleOf (?x :: ?l))
    with (match titleOf x with Some t => t :: omap titleOf l | None => omap titleOf l end).
  by rewrite titleOf_renamed, IH.
Qed.

(** X5. [updateDisplayName] never changes the titles of the document:
    [extractTitles] gives the same list before and after. *)
Theorem updateDisplayName_keeps_titles (JSON_stringify : JsonValue -> string)
    (title newValue : string) (s : State) :
  wf (parsedJson s) = true ->
  extractTitles (parsedJson (updateDisplayName JSON_stringify title newValue s))
  = extractTitles (parsedJson s).
Proof.
  intros Hwf. unfold updateDisplayName.
  destruct (displayNames s !! title) as [entry|]; [|done].
  unfold updateJsonDisplay. cbn [parsedJson withParsedJson withDisplayNames].
  rewrite updateJson_rename by done.
  assert (extractTitles (Spec.renameDisplayName (displayName entry) newValue (parsedJson s))
          = extractTitles (parsedJson s)) as H.
  { unfold extractTitles. by rewrite !collect_titlesOf, titlesOf_rename. }
  by destruct (truthy _ && typeofObject _).
Qed.

Lemma updateDisplayName_keeps_titles_witness :
  extractTitles (parsedJson (updateDisplayName (fun _ => "") "A" "Y" Examples.collisionState))
  = ["A"; "B"].
Proof.
  rewrite (updateDisplayName_keeps_titles (fun _ => "") "A" "Y" Examples.collisionState
             eq_refl).
  reflexivity.
Defined.

(** *** Successive edits *)

Lemma rename_same (d : string) (v : JsonValue) :
  Spec.renameDisplayName d d v = v.
Proof.
  induction v as [|b|x|s|items IH|props IH] using JsonValue_ind; try done.
  - cbn [Spec.renameDisplayName]. f_equal. apply map_fixed.
    intros x Hx. rewrite Forall_forall in IH. by apply IH.
  - cbn [Spec.renameDisplayName]. f_equal. apply map_fixed.
    intros [k x] Hx. rewrite Forall_forall in IH. specialize (IH _ Hx). simpl in IH.
    destruct (isDisplayNameKey k && strictEq x d) eqn:E; [|by rewrite IH].
    apply andb_true_iff in E as [_ E]. destruct x; try done. simpl in E.
    apply String.eqb_eq in E. by subst.
Qed.

(** When no display name of the document is [a], renaming to [a] and
    then from [a] to [b] is renaming to [b]. *)
Lemma rename_rename (oldValue a b : string) (v : JsonValue) :
  Spec.displays a v = false ->
  Spec.renameDisplayName a b (Spec.renameDisplayName oldValue a v)
  = Spec.renameDisplayName oldValue b v.
Proof.
  induction v as [|x|x|s|items IH|props IH] using JsonValue_ind; try done.
  - cbn [Spec.renameDisplayName Spec.displays]. intros Hno. f_equal.
    rewrite map_map. apply map_ext_in. intros x Hx.
    rewrite Forall_forall in IH. apply list_elem_of_In in Hx. apply IH; [done|].
    apply not_true_is_false. intros Hd.
    assert (existsb (Spec.displays a) items = true) as Hex; [|congruence].
    apply existsb_exists. exists x. split; [by apply list_elem_of_In|done].
  - cbn [Spec.renameDisplayName Spec.displays]. intros Hno. f_equal.
    rewrite map_map. apply map_ext_in. intros [k x] Hx. f_equal.
    assert ((isDisplayNameKey k && strictEq x a) || Spec.displays a x = false) as Hkx.
    { apply not_true_is_false. intros Hd.
      assert (existsb (fun kv => (isDisplayNameKey kv.1 && strictEq kv.2 a)
                                 || Spec.displays a kv.2) props = true) as Hex;
        [|congruence].
      apply existsb_exists. by exists (k, x). }
    apply orb_false_iff in Hkx as [Hka Hda].
    rewrite Forall_forall in IH. apply list_elem_of_In in Hx.
    specialize (IH _ Hx Hda). simpl in IH.
    destruct (isDisplayNameKey k) eqn:Ek; simpl in *.
    + destruct (strictEq x oldValue) eqn:Eo.
      * simpl. by rewrite String.eqb_refl.
      * assert (strictEq (Spec.renameDisplayName oldValue a x) a = false) as ->; [|done].
        destruct x; try done.
    + done.
Qed.

Lemma wf_rename (oldValue newValue : string) (v : JsonValue) :
  wf v = true -> wf (Spec.renameDisplayName oldValue newValue v) = true.
Proof.
  induction v as [|b|x|s|items IH|props IH] using JsonValue_ind; try done.
  - intros Hwf. cbn [Spec.renameDisplayName]. apply wf_array. intros y Hy.
    apply list_elem_of_fmap in Hy as (x & -> & Hx).
    rewrite Forall_forall in IH. apply IH; [done|]. by apply (proj1 (wf_array items) Hwf).
  - intros Hwf. apply wf_object in Hwf as [Hnd Hwf].
    cbn [Spec.renameDisplayName]. apply wf_object. split.
    + replace (keys _) with (keys props); [done|].
      unfold keys. rewrite map_map. apply map_ext. by intros [k x].
    + intros kv Hkv. apply list_elem_of_fmap in Hkv as ([k x] & -> & Hx).
      simpl. destruct (isDisplayNameKey k && strictEq x oldValue); [done|].
      rewrite Forall_forall in IH. apply (IH _ Hx). by apply (Hwf _ Hx).
Qed.

(** X6. Two edits of the display name of one title in a row, first to
    [a] and then to [b], leave the document and the index as the single
    edit to [b] does, provided that [a] was not already a display name
    somewhere in the document.  In particular, editing back to the
    previous display name restores the document and the index. *)
Theorem updateDisplayName_twice (JSON_stringify : JsonValue -> string)
    (title a b : string) (s : State) (entry : DisplayName) :
  wf (parsedJson s) = true ->
  displayNames s !! title = Some entry ->
  Spec.displays a (parsedJson s) = false ->
  let s1 := updateDisplayName JSON_stringify title a s in
  let s2 := updateDisplayName JSON_stringify title b s1 in
  let s' := updateDisplayName JSON_stringify title b s in
  (parsedJson s2 = parsedJson s' /\ displayNames s2 = displayNames s')
  /\ (b = displayName entry ->
      parsedJson s2 = parsedJson s /\ displayNames s2 = displayNames s).
Proof.
  intros Hwf Hentry Hfree s1 s2 s'.
  assert (forall (x : string) (st : State) (e : DisplayName),
            wf (parsedJson st) = true -> displayNames st !! title = Some e ->
            parsedJson (updateDisplayName JSON_stringify title x st)
            = Spec.renameDisplayName (displayName e) x (parsedJson st)
            /\ displayNames (updateDisplayName JSON_stringify title x st)
               = <[title := mkDisplayName (Page.title e) x]> (displayNames st)) as Hstep.
  { intros x st e Hw He. unfold updateDisplayName. rewrite He.
    unfold updateJsonDisplay. cbn [parsedJson displayNames withParsedJson withDisplayNames].
    rewrite updateJson_rename by done.
    by destruct (truthy _ && typeofObject _). }
  destruct (Hstep a s entry Hwf Hentry) as [Hpj1 Hdn1]. fold s1 in Hpj1, Hdn1.
  destruct (Hstep b s entry Hwf Hentry) as [Hpj' Hdn']. fold s' in Hpj', Hdn'.
  destruct (Hstep b s1 (mkDisplayName (Page.title entry) a)) as [Hpj2 Hdn2].
  { rewrite Hpj1. by apply wf_rename. }
  { rewrite Hdn1. apply lookup_insert_eq. }
  fold s2 in Hpj2, Hdn2. cbn [displayName Page.title] in Hpj2, Hdn2.
  assert (parsedJson s2 = parsedJson s' /\ displayNames s2 = displayNames s') as [H1 H2].
  { split.
    - rewrite Hpj2, Hpj1, Hpj'. by apply rename_rename.
    - rewrite Hdn2, Hdn1, Hdn'. apply insert_insert_eq. }
  split; [done|]. intros ->. rewrite H1, H2, Hpj', Hdn'. split.
  - apply rename_same.
  - apply insert_id. rewrite Hentry. by destruct entry.
Qed.

Lemma updateDisplayName_twice_witness :
  parsedJson (updateDisplayName (fun _ => "") "A" "X"
                (updateDisplayName (fun _ => "") "A" "Y" Examples.collisionState))
  = parsedJson Examples.collisionState.
Proof.
  destruct (updateDisplayName_twice (fun _ => "") "A" "Y" "X" Examples.collisionState
              (mkDisplayName "A" "X") eq_refl eq_refl eq_refl) as [_ H].
  by destruct (H eq_refl) as [-> _].
Defined.

End RenameFacts.

(** ** More on the gap-filler *)

Module FillMore.

Import JsFacts JsonFacts Page ExtractFacts FillFacts TitleFacts.



(** *** The index across a run *)

Lemma fillNode_entries (obj : Props JsonValue) (dn : gmap string DisplayName)
    (k : string) (e : DisplayName) :
  (fillNode obj dn).2 !! k = Some e ->
  dn !! k = Some e \/ (e = mkDisplayName k k /\ trim k = k).
Proof.
  unfold fillNode.
  destruct (find isTitleKey (keys obj)) as [tk|];
    destruct (find isDisplayNameKey (keys obj)) as [dk|];
    try (destruct (stringAt (Some dk) obj); by left); [|by left].
  destruct (stringAt (Some tk) obj) as [t|]; [|by left].
  destruct (dn !! trim t) eqn:E; [by left|]. cbn [snd]. intros Hlook.
  destruct (decide (trim t = k)) as [<-|Hne].
  - rewrite lookup_insert_eq in Hlook. injection Hlook as <-. right.
    split; [done|]. apply trim_idemp.
  - rewrite lookup_insert_ne in Hlook by done. by left.
Qed.

Lemma addMissing_entries (d : nat) :
  forall v dn k e, depth v < d -> wf v = true ->
  (addMissingDisplayNames v dn).2 !! k = Some e ->
  dn !! k = Some e \/ (e = mkDisplayName k k /\ trim k = k).
Proof.
  induction d as [|d IH]; intros v dn k e Hd Hwf; [lia|].
  destruct v as [|b|x|s|items|props]; try (by left).
  - rewrite addMissing_array by done. cbn [snd].
    apply (mapAccum_state
      (fun dn' => dn' !! k = Some e -> dn !! k = Some e \/ (e = mkDisplayName k k /\ trim k = k)));
      [|by left].
    intros x s Hx Hs He.
    destruct (IH x s k e) as [H|H]; [|by apply (proj1 (wf_array items) Hwf)|done|auto|auto].
    pose proof (depth_item items x Hx). lia.
  - rewrite addMissing_object by done. cbn zeta. cbn [snd].
    pose proof (fillNode_children props dn Hwf) as Hch.
    apply (mapAccum_state
      (fun dn' => dn' !! k = Some e -> dn !! k = Some e \/ (e = mkDisplayName k k /\ trim k = k))).
    + intros kv s Hkv Hs He. unfold Spec.visitProp in He.
      rewrite Forall_forall in Hch. destruct (Hch kv Hkv) as [Hwfk Hdk].
      destruct (addMissingDisplayNames kv.2 s) as [v' s'] eqn:E. cbn [snd] in He.
      destruct (IH kv.2 s k e) as [H|H]; [simpl in *; lia|done|by rewrite E|auto|auto].
    + apply fillNode_entries.
Qed.

(** X8. [addMissingDisplayNames] only adds to the index: every entry
    it was given is returned as it was, and every entry of the returned
    index that it was not given maps a trimmed title to itself. *)
Theorem addMissingDisplayNames_index_grows (value : JsonValue)
    (displayNames : gmap string DisplayName) :
  wf value = true ->
  (forall k e, displayNames !! k = Some e ->
     (addMissingDisplayNames value displayNames).2 !! k = Some e)
  /\ (forall k e, (addMissingDisplayNames value displayNames).2 !! k = Some e ->
        displayNames !! k = Some e \/ (e = mkDisplayName k k /\ trim k = k)).
Proof.
  intros Hwf. split.
  - intros k e. by apply (addMissing_index (S (depth value))); [lia|].
  - intros k e. by apply (addMissing_entries (S (depth value))); [lia|].
Qed.

Lemma addMissingDisplayNames_index_grows_witness :
  (addMissingDisplayNames Examples.sunDocument {["Moon" := mkDisplayName "Moon" "Lune"]}).2
  !! "Moon" = Some (mkDisplayName "Moon" "Lune").
Proof.
  apply (addMissingDisplayNames_index_grows Examples.sunDocument
           {["Moon" := mkDisplayName "Moon" "Lune"]} eq_refl).
  reflexivity.
Defined.

(** *** The titles across a run *)

Lemma titlesOf_array (items : list JsonValue) :
  Spec.titlesOf (JArray items) = flat_map Spec.titlesOf items.
Proof.
  unfold Spec.titlesOf. cbn [nodes].
  induction items as [|x r IH]; [done|]. cbn [flat_map]. by rewrite omap_app, IH.
Qed.

Lemma titlesOf_object (props : Props JsonValue) :
  Spec.titlesOf (JObject props)
  = match titleOf props with Some t => [t] | None => [] end
    ++ flat_map (fun kv => Spec.titlesOf kv.2) props.
Proof.
  unfold Spec.titlesOf. cbn [nodes].
  assert (omap titleOf (flat_map (fun kv => nodes kv.2) props)
          = flat_map (fun kv => omap titleOf (nodes kv.2)) props) as Hflat.
  { induction props as [|x r IH]; [done|]. cbn [flat_map]. by rewrite omap_app, IH. }
  change (omap titleOf (props :: ?l))
    with (match titleOf props with Some t => t :: omap titleOf l | None => omap titleOf l end).
  rewrite Hflat. by destruct (titleOf props).
Qed.

(** The title of a node depends on its keys and string values only. *)
Lemma titleOf_same (obj obj' : Props JsonValue) :
  Forall2 (fun kv kv' => kv'.1 = kv.1 /\ stringOf kv'.2 = stringOf kv.2) obj obj' ->
  titleOf obj' = titleOf obj.
Proof.
  intros Hsame.
  assert (keys obj' = keys obj) as Hkeys.
  { induction Hsame as [|kv kv' r r' [Hk _] _ IH]; simpl; [done|]. by rewrite Hk, IH. }
  unfold titleOf. rewrite Hkeys.
  destruct (find isTitleKey (keys obj)) as [tk|]; [|done]. unfold stringAt.
  clear Hkeys. induction Hsame as [|[k1 v1] [k2 v2] r r' [Hk Hv] _ IH]; simpl in *; [done|].
  subst k2. by destruct (String.eqb k1 tk).
Qed.

Lemma titleOf_snoc_displayName (props : Props JsonValue) (x : string) :
  titleOf (props ++ [("displayName", JString x)]) = titleOf props.
Proof.
  unfold titleOf. rewrite keys_app, find_app. simpl.
  destruct (find isTitleKey (keys props)) as [tk|] eqn:E; [|done].
  apply find_keys_Some in E as [Hin _]. unfold stringAt. rewrite get_app.
  destruct (get tk props) eqn:Eg; [done|]. by apply get_None in Eg.
Qed.

Lemma titleOf_set_displayName (props : Props JsonValue) (dk x : string) :
  isDisplayNameKey dk = true -> dk ∈ keys props ->
  titleOf (set dk (JString x) props) = titleOf props.
Proof.
  intros Hdk Hin. unfold titleOf.
  rewrite keys_set, bool_decide_eq_true_2 by done.
  destruct (find isTitleKey (keys props)) as [tk|] eqn:E; [|done].
  apply find_keys_Some in E as [_ Htk]. unfold stringAt. rewrite get_set.
  destruct (String.eqb_spec dk tk) as [->|_]; [|done].
  apply RenameFacts.title_not_displayName in Htk. congruence.
Qed.

Lemma titles_set_string (props : Props JsonValue) (dk d x : string) :
  get dk props = Some (JString d) ->
  flat_map (fun kv => Spec.titlesOf kv.2) (set dk (JString x) props)
  = flat_map (fun kv => Spec.titlesOf kv.2) props.
Proof.
  induction props as [|[k v] r IH]; simpl; [done|].
  destruct (String.eqb k dk).
  - by intros [= ->].
  - intros H. simpl. by rewrite IH.
Qed.

(** The node rule changes neither the title of the node nor the titles
    below it. *)
Lemma fillNode_titles (props : Props JsonValue) (dn : gmap string DisplayName) :
  titleOf (fillNode props dn).1 = titleOf props
  /\ flat_map (fun kv => Spec.titlesOf kv.2) (fillNode props dn).1
     = flat_map (fun kv => Spec.titlesOf kv.2) props.
Proof.
  unfold fillNode.
  destruct (find isTitleKey (keys props)) as [tk|] eqn:Etk;
    destruct (find isDisplayNameKey (keys props)) as [dk|] eqn:Edk.
  - destruct (stringAt (Some dk) props) as [d|] eqn:E; [|done]. cbn [fst].
    apply find_keys_Some in Edk as [Hin Hdk]. split.
    + by apply titleOf_set_displayName.
    + apply (titles_set_string props dk d). by apply stringAt_JString.
  - assert ("displayName" ∉ keys props) as Hfresh
      by (by apply (find_keys_None isDisplayNameKey)).
    destruct (stringAt (Some tk) props) as [t|]; [|done].
    destruct (dn !! trim t); cbn [fst]; rewrite set_absent by done;
      (split; [apply titleOf_snoc_displayName|]);
      rewrite flat_map_app; simpl; by rewrite app_nil_r.
  - destruct (stringAt (Some dk) props) as [d|] eqn:E; [|done]. cbn [fst].
    apply find_keys_Some in Edk as [Hin Hdk]. split.
    + by apply titleOf_set_displayName.
    + apply (titles_set_string props dk d). by apply stringAt_JString.
  - done.
Qed.

Lemma flat_map_Forall2 {A B} (f : A -> list B) (l l' : list A) :
  Forall2 (fun x y => f y = f x) l l' -> flat_map f l' = flat_map f l.
Proof.
  intros HF. induction HF as [|x y r r' Hxy _ IH]; [done|]. simpl. by rewrite Hxy, IH.
Qed.

Lemma addMissing_titles (d : nat) :
  forall v dn, depth v < d -> wf v = true ->
  Spec.titlesOf (addMissingDisplayNames v dn).1 = Spec.titlesOf v.
Proof.
  induction d as [|d IH]; intros v dn Hd Hwf; [lia|].
  destruct v as [|b|x|s|items|props]; try done.
  - rewrite addMissing_array by done. cbn [fst]. rewrite !titlesOf_array.
    pose proof (mapAccum_Forall2 addMissingDisplayNames items dn) as HF.
    assert (Forall2 (fun x y => Spec.titlesOf y = Spec.titlesOf x) items
              (mapAccum addMissingDisplayNames items dn).1) as HF2.
    { eapply Forall2_impl_elem; [exact HF|]. intros x y Hx [s1 <-].
      apply IH; [|by apply (proj1 (wf_array items) Hwf)].
      pose proof (depth_item items x Hx). lia. }
    by apply flat_map_Forall2.
  - rewrite addMissing_object by done. cbn zeta. cbn [fst].
    pose proof (fillNode_children props dn Hwf) as Hch.
    destruct (fillNode_titles props dn) as [Ht Hbelow].
    set (obj1 := (fillNode props dn).1) in *.
    pose proof (mapAccum_Forall2 (Spec.visitProp addMissingDisplayNames) obj1
                  (fillNode props dn).2) as HF.
    set (obj2 := (mapAccum (Spec.visitProp addMissingDisplayNames) obj1
                    (fillNode props dn).2).1) in *.
    assert (Forall2 (fun kv kv' => (kv'.1 = kv.1 /\ stringOf kv'.2 = stringOf kv.2)
                                   /\ Spec.titlesOf kv'.2 = Spec.titlesOf kv.2)
              obj1 obj2) as HF2.
    { eapply Forall2_impl_elem; [exact HF|].
      intros kv kv' Hkv [s1 <-]. unfold Spec.visitProp.
      rewrite Forall_forall in Hch. destruct (Hch kv Hkv) as [Hwfk Hdk].
      destruct (addMissing_settles (S (depth kv.2)) kv.2 s1 ltac:(lia) Hwfk)
        as (_ & _ & Hstr).
      pose proof (IH kv.2 s1 ltac:(simpl in *; lia) Hwfk) as Htit.
      by destruct (addMissingDisplayNames kv.2 s1). }
    rewrite !titlesOf_object, <- Ht, <- Hbelow. f_equal.
    + erewrite titleOf_same; [done|].
      eapply Forall2_impl; [exact HF2|]. by intros kv kv' [? _].
    + apply (flat_map_Forall2 (fun kv => Spec.titlesOf kv.2)).
      eapply Forall2_impl; [exact HF2|]. by intros kv kv' [_ ?].
Qed.

(** X9. [addMissingDisplayNames] never changes the titles of the
    document: [extractTitles] gives the same list before and after. *)
Theorem addMissingDisplayNames_keeps_titles (value : JsonValue)
    (displayNames : gmap string DisplayName) :
  wf value = true ->
  extractTitles (addMissingDisplayNames value displayNames).1 = extractTitles value.
Proof.
  intros Hwf. unfold extractTitles. rewrite !collect_titlesOf.
  by rewrite (addMissing_titles (S (depth value))) by (lia || done).
Qed.

Lemma addMissingDisplayNames_keeps_titles_witness :
  extractTitles (addMissingDisplayNames Examples.sunDocument ∅).1 = ["Sun "; "Moon"].
Proof.
  rewrite (addMissingDisplayNames_keeps_titles Examples.sunDocument ∅ eq_refl).
  reflexivity.
Defined.

(** *** The handler *)

Lemma addMissing_truthy (v : JsonValue) (dn : gmap string DisplayName) :
  wf v = true -> truthy (addMissingDisplayNames v dn).1 = truthy v.
Proof.
  intros Hwf. destruct v as [|b|x|s|items|props]; try done.
  - by rewrite addMissing_array.
  - by rewrite addMissing_object.
Qed.

Lemma handleAddMissingDisplayNames_state (JSON_stringify : JsonValue -> string)
    (s : State) :
  truthy (parsedJson s) = true ->
  handleAddMissingDisplayNames JSON_stringify s
  = let value := (addMissingDisplayNames (parsedJson s) (displayNames s)).1 in
    mkState (JSON_stringify value) value (extractDisplayNames value ∅)
      (selectedTitle s) (selectedLanguage s).
Proof.
  intros Ht. unfold handleAddMissingDisplayNames. rewrite Ht.
  destruct (addMissingDisplayNames (parsedJson s) (displayNames s)) as [value dn].
  unfold updateJsonDisplay, withDisplayNames, withParsedJson, withJsonInput. cbn.
  by destruct (truthy value && typeofObject value).
Qed.

(** X10. Running [handleAddMissingDisplayNames] twice in a row gives the
    state that one run gives: document, index, text and selection. *)
Theorem handleAddMissingDisplayNames_twice (JSON_stringify : JsonValue -> string)
    (s : State) :
  wf (parsedJson s) = true ->
  handleAddMissingDisplayNames JSON_stringify
    (handleAddMissingDisplayNames JSON_stringify s)
  = handleAddMissingDisplayNames JSON_stringify s.
Proof.
  intros Hwf. destruct (truthy (parsedJson s)) eqn:Etruthy.
  - pose proof (addMissing_truthy (parsedJson s) (displayNames s) Hwf) as Ht.
    destruct (addMissing_settles (S (depth (parsedJson s))) (parsedJson s) (displayNames s)
                ltac:(lia) Hwf) as (Hwf1 & Hset & _).
    rewrite (handleAddMissingDisplayNames_state JSON_stringify s Etruthy). cbn zeta.
    set (value := (addMissingDisplayNames (parsedJson s) (displayNames s)).1) in *.
    rewrite handleAddMissingDisplayNames_state by (cbn; congruence).
    cbn [parsedJson displayNames selectedTitle selectedLanguage]. cbn zeta.
    by rewrite (addMissing_fixed (S (depth value)) value _ ltac:(lia) Hwf1 Hset).
  - unfold handleAddMissingDisplayNames at 2. rewrite Etruthy.
    unfold handleAddMissingDisplayNames. by rewrite Etruthy.
Qed.

Lemma handleAddMissingDisplayNames_twice_witness :
  handleAddMissingDisplayNames (fun _ => "")
    (handleAddMissingDisplayNames (fun _ => "") Examples.untranslatedState)
  = handleAddMissingDisplayNames (fun _ => "") Examples.untranslatedState.
Proof.
  apply (handleAddMissingDisplayNames_twice (fun _ => "") Examples.untranslatedState).
  reflexivity.
Defined.

End FillMore.

(** ** More on the translation merge *)

Module MergeMore.

Import JsFacts JsonFacts Page FillFacts MergeFacts FillMore.

Lemma traverse_array_eq (translations : gmap string string) (items : list JsonValue) :
  wf (JArray items) = true ->
  traverse translations (JArray items) = JArray (map (traverse translations) items).
Proof.
  intros Hwf. unfold traverse at 1. cbn [traverseFuel]. f_equal.
  apply map_ext_in. intros x Hx. apply list_elem_of_In in Hx.
  apply traverseFuel_enough.
  - by apply (proj1 (wf_array items) Hwf).
  - by apply depth_item.
Qed.

Lemma traverse_object_eq (translations : gmap string string) (props : Props JsonValue) :
  wf (JObject props) = true ->
  traverse translations (JObject props)
  = JObject (map (fun kv => (kv.1, traverse translations kv.2))
               (Spec.mergeProps translations props)).
Proof.
  intros Hwf.
  pose proof (mergeProps_children translations props Hwf) as Hch.
  pose proof (proj1 (wf_object props) Hwf) as [Hnd _].
  unfold traverse at 1. rewrite traverseFuel_object by done. f_equal.
  apply map_ext_in. intros kv Hkv. apply list_elem_of_In in Hkv.
  rewrite Forall_forall in Hch. destruct (Hch kv Hkv) as [Hwfk Hdk].
  f_equal. destruct (typeofObject kv.2) eqn:Ety.
  - by apply traverseFuel_enough.
  - symmetry. apply traverse_primitive. by destruct (kv.2).
Qed.

Lemma traverse_stringOf (translations : gmap string string) (v : JsonValue) :
  wf v = true -> stringOf (traverse translations v) = stringOf v.
Proof.
  intros Hwf. destruct v as [|b|x|s|items|props]; try done.
  all: first [by rewrite traverse_array_eq | by rewrite traverse_object_eq].
Qed.

(** The keys and the string values of an object fix what [stringAt]
    reads from it. *)
Lemma stringAt_same (obj obj' : Props JsonValue) (key : option string) :
  Forall2 (fun kv kv' => kv'.1 = kv.1 /\ stringOf kv'.2 = stringOf kv.2) obj obj' ->
  keys obj' = keys obj /\ stringAt key obj' = stringAt key obj.
Proof.
  intros Hsame. split.
  - induction Hsame as [|kv kv' r r' [Hk _] _ IH]; simpl; [done|]. by rewrite Hk, IH.
  - destruct key as [k|]; [|done]. unfold stringAt.
    induction Hsame as [|[k1 v1] [k2 v2] r r' [Hk Hv] _ IH]; simpl in *; [done|].
    subst k2. by destruct (String.eqb k1 k).
Qed.

Lemma filter_map_keys (f : JsonValue -> JsonValue) (p : string -> bool)
    (props : Props JsonValue) :
  List.filter (fun kv => p kv.1) (map (fun kv => (kv.1, f kv.2)) props)
  = map (fun kv => (kv.1, f kv.2)) (List.filter (fun kv => p kv.1) props).
Proof.
  induction props as [|[k v] r IH]; simpl; [done|].
  destruct (p k); simpl; by rewrite IH.
Qed.

(** The node step of the merge commutes with a map over the property
    values that keeps strings. *)
Lemma mergeProps_map (translations : gmap string string) (f : JsonValue -> JsonValue)
    (props : Props JsonValue) :
  (forall s, f (JString s) = JString s) ->
  (forall kv, kv ∈ props -> stringOf (f kv.2) = stringOf kv.2) ->
  Spec.mergeProps translations (map (fun kv => (kv.1, f kv.2)) props)
  = map (fun kv => (kv.1, f kv.2)) (Spec.mergeProps translations props).
Proof.
  intros Hstr Hkeep.
  assert (Forall2 (fun kv kv' => kv'.1 = kv.1 /\ stringOf kv'.2 = stringOf kv.2)
            props (map (fun kv => (kv.1, f kv.2)) props)) as Hsame.
  { apply Forall2_fmap_r, Forall_Forall2_diag, Forall_forall.
    intros kv Hkv. split; [done|]. by apply Hkeep. }
  unfold Spec.mergeProps, titleOf, displayNameOf.
  destruct (stringAt_same _ _ (find isTitleKey (keys props)) Hsame) as [Hkeys Ht].
  destruct (stringAt_same _ _ (find isDisplayNameKey (keys props)) Hsame) as [_ Hd].
  rewrite Hkeys, Ht, Hd.
  destruct (stringAt (find isTitleKey (keys props)) props) as [t|].
  - destruct (translations !! t) as [x|]; [|done].
    rewrite map_app. simpl. rewrite Hstr.
    by rewrite (filter_map_keys f (fun k => negb (isDisplayNameKey k))).
  - destruct (find isDisplayNameKey (keys props)) as [dk|]; [|done].
    destruct (stringAt (Some dk) props) as [d|]; [|done].
    rewrite !map_map. apply map_ext. intros [k v]. simpl.
    destruct (String.eqb k dk); simpl; [by rewrite Hstr|done].
Qed.

Lemma titleOf_filter (props : Props JsonValue) :
  titleOf (List.filter (fun kv => negb (isDisplayNameKey kv.1)) props) = titleOf props.
Proof.
  unfold titleOf.
  assert (find isTitleKey (keys (List.filter (fun kv => negb (isDisplayNameKey kv.1)) props))
          = find isTitleKey (keys props)) as ->.
  { induction props as [|[k v] r IH]; simpl; [done|].
    destruct (isDisplayNameKey k) eqn:Ek; simpl.
    - rewrite IH. destruct (isTitleKey k) eqn:Et; [|done].
      apply RenameFacts.title_not_displayName in Et. congruence.
    - by rewrite IH. }
  destruct (find isTitleKey (keys props)) as [tk|] eqn:E; [|done].
  apply find_keys_Some in E as [_ Htk].
  apply RenameFacts.title_not_displayName in Htk. unfold stringAt.
  assert (get tk (List.filter (fun kv => negb (isDisplayNameKey kv.1)) props)
          = get tk props) as ->; [|done].
  induction props as [|[k v] r IH]; simpl; [done|].
  destruct (isDisplayNameKey k) eqn:Ek; simpl.
  - rewrite IH. destruct (String.eqb_spec k tk) as [->|]; [congruence|done].
  - by rewrite IH.
Qed.

Lemma get_replace (props : Props JsonValue) (dk k : string) (x : JsonValue) :
  get k (map (fun kv => if String.eqb kv.1 dk then (kv.1, x) else kv) props)
  = if String.eqb k dk then (fun _ => x) <$> get k props else get k props.
Proof.
  induction props as [|[k1 v1] r IH]; simpl.
  - by destruct (String.eqb k dk).
  - destruct (String.eqb_spec k1 dk) as [->|Hne]; simpl.
    + destruct (String.eqb_spec dk k) as [->|Hne'].
      * by rewrite String.eqb_refl.
      * rewrite IH. done.
    + destruct (String.eqb_spec k1 k) as [->|Hne'].
      * destruct (String.eqb_spec k dk); [congruence|done].
      * apply IH.
Qed.

Lemma keys_replace (props : Props JsonValue) (dk : string) (x : JsonValue) :
  keys (map (fun kv => if String.eqb kv.1 dk then (kv.1, x) else kv) props) = keys props.
Proof.
  unfold keys. rewrite map_map. apply map_ext. intros [k v]. simpl.
  by destruct (String.eqb k dk).
Qed.

(** The node step of the merge, done twice, is the step done once. *)
Lemma mergeProps_idemp (translations : gmap string string) (props : Props JsonValue) :
  Spec.mergeProps translations (Spec.mergeProps translations props)
  = Spec.mergeProps translations props.
Proof.
  unfold Spec.mergeProps at 2.
  destruct (titleOf props) as [t|] eqn:Et.
  - destruct (translations !! t) as [x|] eqn:Ex.
    + unfold Spec.mergeProps.
      rewrite titleOf_snoc_displayName, titleOf_filter, Et, Ex.
      rewrite List.filter_app, filter_filter. simpl. rewrite app_nil_r. f_equal.
      apply filter_ext. intros kv. by destruct (isDisplayNameKey kv.1).
    + unfold Spec.mergeProps. by rewrite Et, Ex.
  - destruct (find isDisplayNameKey (keys props)) as [dk|] eqn:Edk;
      [|unfold Spec.mergeProps; by rewrite Et, Edk].
    destruct (displayNameOf props) as [d|] eqn:Ed;
      [|unfold Spec.mergeProps; by rewrite Et, Edk, Ed].
    pose proof (find_keys_Some _ _ _ Edk) as [_ Hdk].
    unfold Spec.mergeProps, titleOf, displayNameOf in *.
    rewrite keys_replace, Edk in *.
    assert (stringAt (find isTitleKey (keys props))
              (map (fun kv => if String.eqb kv.1 dk then (kv.1, JString (trim d)) else kv)
                 props) = None) as ->.
    { destruct (find isTitleKey (keys props)) as [tk|] eqn:Etk; [|done].
      apply find_keys_Some in Etk as [_ Htk].
      apply RenameFacts.title_not_displayName in Htk.
      unfold stringAt in *. rewrite get_replace.
      destruct (String.eqb_spec tk dk) as [->|]; [congruence|done]. }
    assert (stringAt (Some dk)
              (map (fun kv => if String.eqb kv.1 dk then (kv.1, JString (trim d)) else kv)
                 props) = Some (trim d)) as ->.
    { unfold stringAt in *. rewrite get_replace, String.eqb_refl.
      by destruct (get dk props). }
    rewrite Et, Ed, map_map. apply map_ext. intros [k v]. simpl.
    destruct (String.eqb k dk) eqn:Ek; simpl; rewrite Ek; [|done].
    by rewrite trim_idemp.
Qed.

Lemma wf_traverse (translations : gmap string string) (d : nat) :
  forall v, depth v < d -> wf v = true -> wf (traverse translations v) = true.
Proof.
  induction d as [|d IH]; intros v Hd Hwf; [lia|].
  destruct v as [|b|x|s|items|props]; try done.
  - rewrite traverse_array_eq by done. apply wf_array. intros y Hy.
    apply list_elem_of_fmap in Hy as (x & -> & Hx).
    apply IH; [|by apply (proj1 (wf_array items) Hwf)].
    pose proof (depth_item items x Hx). lia.
  - rewrite traverse_object_eq by done.
    pose proof (mergeProps_children translations props Hwf) as Hch.
    apply wf_object. split.
    + replace (keys _) with (keys (Spec.mergeProps translations props)).
      * apply mergeProps_NoDup. by apply (proj1 (wf_object props) Hwf).
      * unfold keys. by rewrite map_map.
    + intros kv Hkv. apply list_elem_of_fmap in Hkv as (kv0 & -> & Hkv0). simpl.
      rewrite Forall_forall in Hch. destruct (Hch kv0 Hkv0) as [Hwfk Hdk].
      apply IH; [simpl in *; lia|done].
Qed.

Lemma traverse_twice (translations : gmap string string) (d : nat) :
  forall v, depth v < d -> wf v = true ->
  traverse translations (traverse translations v) = traverse translations v.
Proof.
  induction d as [|d IH]; intros v Hd Hwf; [lia|].
  pose proof (wf_traverse translations (S d) v Hd Hwf) as Hwf1.
  destruct v as [|b|x|s|items|props]; try done.
  - rewrite traverse_array_eq in * by done. rewrite traverse_array_eq by done.
    f_equal. rewrite map_map. apply map_ext_in. intros x Hx.
    apply list_elem_of_In in Hx. apply IH; [|by apply (proj1 (wf_array items) Hwf)].
    pose proof (depth_item items x Hx). lia.
  - pose proof (mergeProps_children translations props Hwf) as Hch.
    rewrite Forall_forall in Hch.
    rewrite traverse_object_eq in * by done. rewrite traverse_object_eq by done.
    f_equal. rewrite mergeProps_map.
    + rewrite mergeProps_idemp, map_map. apply map_ext_in. intros kv Hkv.
      apply list_elem_of_In in Hkv. destruct (Hch kv Hkv) as [Hwfk Hdk]. simpl.
      f_equal. apply IH; [simpl in *; lia|done].
    + done.
    + intros kv Hkv. destruct (Hch kv Hkv) as [Hwfk _]. by apply traverse_stringOf.
Qed.

(** X11. A second translation merge with the same translations changes
    nothing: [traverse] applied to its own result returns it. *)
Theorem traverse_idempotent (translations : gmap string string) (v : JsonValue) :
  wf v = true ->
  traverse translations (traverse translations v) = traverse translations v.
Proof. intros Hwf. by apply (traverse_twice translations (S (depth v))); [lia|]. Qed.

Lemma traverse_idempotent_witness :
  traverse {["Home" := "  Accueil  "]}
    (traverse {["Home" := "  Accueil  "]} Examples.strayCasedHome)
  = traverse {["Home" := "  Accueil  "]} Examples.strayCasedHome.
Proof.
  apply (traverse_idempotent {["Home" := "  Accueil  "]} Examples.strayCasedHome).
  reflexivity.
Defined.

End MergeMore.

(** ** More on the translation endpoint: the cache and the answers *)

Module ServerMore.

Import JsFacts Server ServerFacts.






Lemma splitCommas_nonempty (s : string) : forall cur, splitCommas cur s <> [].
Proof.
  induction s as [|c r IH]; intros cur; simpl; [done|].
  destruct (Ascii.eqb c ","); [done|apply IH].
Qed.

Section Serving.

Variable translateText : string -> string -> option string.
Variable targetLang : string.

Lemma cached_holds (cache : TranslationCache) (t : string) :
  cached targetLang t cache = true <-> exists x, Spec.holds cache t targetLang x.
Proof.
  unfold cached, Spec.holds. destruct (cache !! t) as [entry|]; split.
  - intros H. apply bool_decide_eq_true in H as [x Hx]. by exists x, entry.
  - intros (x & e & [= <-] & Hx). by apply bool_decide_eq_true.
  - done.
  - by intros (x & e & ? & _).
Qed.


(** One assignment of the [forEach], on the cache. *)
Lemma store_one_holds (uc : TranslationCache) (title : string) (v : Text) :
  let uc1 := match uc !! title with Some _ => uc | None => <[title := ∅]> uc end in
  let uc2 := <[title := <[targetLang := v]> (default ∅ (uc1 !! title))]> uc1 in
  Spec.holds uc2 title targetLang v
  /\ (forall t l x, Spec.holds uc t l x -> t <> title \/ l <> targetLang ->
        Spec.holds uc2 t l x)
  /\ (forall t l x, Spec.holds uc2 t l x -> t <> title -> Spec.holds uc t l x).
Proof.
  intros uc1 uc2. unfold Spec.holds. split; [|split].
  - eexists. subst uc2. rewrite lookup_insert_eq. split; [done|].
    by rewrite lookup_insert_eq.
  - intros t l x (e & He & Hl) Hor. subst uc2 uc1.
    destruct (decide (t = title)) as [->|Hne].
    + destruct Hor as [|Hl']; [done|]. rewrite He. rewrite lookup_insert_eq.
      eexists. split; [done|]. rewrite He. simpl. by rewrite lookup_insert_ne.
    + rewrite lookup_insert_ne by done. exists e. split; [|done].
      destruct (uc !! title); [done|]. by rewrite lookup_insert_ne.
  - intros t l x (e & He & Hl) Hne. subst uc2 uc1.
    rewrite lookup_insert_ne in He by done. exists e. split; [|done].
    destruct (uc !! title); [done|]. by rewrite lookup_insert_ne in He.
Qed.

(** The [forEach] keeps every cache entry but those of the batch in the
    target language. *)
Lemma storeTranslated_keeps (b : list string) :
  forall translated index (tr : gmap string Text) (uc : TranslationCache) t l x,
  Spec.holds uc t l x -> t ∉ b \/ l <> targetLang ->
  Spec.holds (storeTranslated targetLang b translated index tr uc).2 t l x.
Proof.
  induction b as [|title r IH]; intros translated index tr uc t l x Hh Hor; [done|].
  cbn [storeTranslated]. apply IH.
  - apply store_one_holds; [done|].
    destruct Hor as [Hnot|Hl]; [|by right].
    left. apply not_elem_of_cons in Hnot. tauto.
  - destruct Hor as [Hnot|Hl]; [|by right].
    left. apply not_elem_of_cons in Hnot. tauto.
Qed.

(** The [forEach] keeps the answers and the cache in step. *)
Lemma storeTranslated_sync (b : list string) :
  forall translated index (tr : gmap string Text) (uc : TranslationCache),
  (forall t x, tr !! t = Some x -> Spec.holds uc t targetLang x) ->
  forall t x,
  (storeTranslated targetLang b translated index tr uc).1 !! t = Some x ->
  Spec.holds (storeTranslated targetLang b translated index tr uc).2 t targetLang x.
Proof.
  induction b as [|title r IH]; intros translated index tr uc Hsync; [done|].
  cbn [storeTranslated]. apply IH. intros t x Ht.
  destruct (decide (t = title)) as [->|Hne].
  - rewrite lookup_insert_eq in Ht. injection Ht as <-.
    apply (proj1 (store_one_holds uc title (translated !! index))).
  - rewrite lookup_insert_ne in Ht by done.
    apply store_one_holds; [by apply Hsync|by left].
Qed.

(** The [forEach] answers the titles of the batch, and no other. *)
Lemma storeTranslated_dom (b : list string) :
  forall translated index (tr : gmap string Text) (uc : TranslationCache) t,
  is_Some ((storeTranslated targetLang b translated index tr uc).1 !! t)
  <-> t ∈ b \/ is_Some (tr !! t).
Proof.
  induction b as [|title r IH]; intros translated index tr uc t.
  - simpl. split; [by right|]. intros [H|H]; [by apply elem_of_nil in H|done].
  - cbn [storeTranslated]. rewrite IH, elem_of_cons.
    destruct (decide (t = title)) as [->|Hne].
    + rewrite lookup_insert_eq. split; [intros _; by left; left|intros _; by right].
    + rewrite lookup_insert_ne by done. tauto.
Qed.


(** A batch that was translated: the state is as the loop needs it, and
    every title seen so far is answered. *)
Lemma translateBatch_serving (cache : TranslationCache) (seen : list string)
    (st st1 : Loop) :
  Spec.serving targetLang cache seen st ->
  translateBatch translateText targetLang (batch st) st = Returned st1 ->
  Spec.serving targetLang cache seen st1
  /\ (forall t, t ∈ seen -> is_Some (translations st1 !! t))
  /\ sent st1 = sent st ++ [batch st].
Proof.
  intros (Hgrow & Hbatch & Hsent & Hsync & Hseen & Hdom). unfold translateBatch.
  destruct (translateText (join "||" (batch st)) targetLang) as [text|]; [|done].
  pose proof (storeTranslated_keeps (batch st) (splitBars "" text) 0
                (translations st) (updatedCache st)) as Hkeeps.
  pose proof (storeTranslated_sync (batch st) (splitBars "" text) 0
                (translations st) (updatedCache st) Hsync) as Hsync1.
  pose proof (storeTranslated_dom (batch st) (splitBars "" text) 0
                (translations st) (updatedCache st)) as Hdom1.
  destruct (storeTranslated targetLang (batch st) (splitBars "" text) 0
              (translations st) (updatedCache st)) as [tr1 uc1].
  intros [= <-]. simpl in *.
  assert (forall t, t ∈ seen -> is_Some (tr1 !! t)) as Hall.
  { intros t Ht. apply Hdom1. destruct (Hseen t Ht); auto. }
  split; [|by split]. unfold Spec.serving. simpl.
  split; [|split; [done|split; [|split; [done|split; [by auto|]]]]].
  - intros t l x Hh. apply Hkeeps; [by apply Hgrow|].
    destruct (decide (t ∈ batch st)) as [Hin|Hnot]; [|by left].
    right. intros ->. destruct (Hbatch t Hin) as [Hc _].
    assert (cached targetLang t cache = true) by (apply cached_holds; by exists x).
    congruence.
  - apply Forall_app. split; [done|]. constructor; [|done].
    intros t Ht. by apply Hbatch.
  - intros t Ht. apply Hdom1 in Ht as [Ht|Ht]; [by apply Hbatch|by apply Hdom].
Qed.

Lemma translateBatch_sent (b : list string) (st : Loop) :
  batchesOf (translateBatch translateText targetLang b st) = sent st ++ [b].
Proof.
  destruct (translateBatch_cases translateText targetLang b st)
    as [(st1 & -> & Hs & _) | ->]; [exact Hs|done].
Qed.

(** The loop keeps [serving]; when a request throws, no batch handed
    over so far has a title that the initial cache answers. *)
Lemma forTitles_serving (cache : TranslationCache) (titles : list string) :
  forall st seen,
  Spec.serving targetLang cache seen st ->
  match forTitles translateText targetLang titles st with
  | Returned st' => Spec.serving targetLang cache (seen ++ titles) st'
  | Thrown sent' =>
      Forall (fun b => forall t, t ∈ b -> cached targetLang t cache = false) sent'
  end.
Proof.
  induction titles as [|title rest IH]; intros st seen Hinv.
  - simpl. by rewrite app_nil_r.
  - replace (seen ++ title :: rest) with ((seen ++ [title]) ++ rest)
      by (by rewrite <- app_assoc).
    cbn [forTitles].
    destruct (cached targetLang title (updatedCache st)) eqn:Ec.
    { apply IH. destruct Hinv as (Hgrow & Hbatch & Hsent & Hsync & Hseen & Hdom).
      apply cached_holds in Ec as [x Hx].
      unfold Spec.serving. simpl.
      split; [done|]. split; [|split; [done|split; [|split]]].
      - intros t Ht. destruct (Hbatch t Ht). split; [done|].
        apply elem_of_app. by left.
      - intros t y Ht. destruct (decide (t = title)) as [->|Hne].
        + rewrite lookup_insert_eq in Ht. injection Ht as <-.
          destruct Hx as (e & He & Hl). exists e. split; [done|].
          rewrite He. simpl. by rewrite lookup_total_alt, Hl.
        + rewrite lookup_insert_ne in Ht by done. by apply Hsync.
      - intros t Ht. destruct (decide (t = title)) as [->|Hne].
        + right. by rewrite lookup_insert_eq.
        + rewrite lookup_insert_ne by done. apply Hseen.
          apply elem_of_app in Ht as [Ht|Ht]; [done|].
          by apply list_elem_of_singleton in Ht.
      - intros t Ht. apply elem_of_app. destruct (decide (t = title)) as [->|Hne].
        + right. by apply list_elem_of_singleton.
        + rewrite lookup_insert_ne in Ht by done. left. by apply Hdom. }
    assert (cached targetLang title cache = false) as Hfresh.
    { destruct (cached targetLang title cache) eqn:Ec0; [|done].
      apply cached_holds in Ec0 as [x Hx].
      destruct Hinv as (Hgrow & _).
      assert (cached targetLang title (updatedCache st) = true)
        by (apply cached_holds; exists x; by apply Hgrow).
      congruence. }
    assert (forall st0, Spec.serving targetLang cache seen st0 ->
              (batch st0 = batch st \/ (batch st0 = []
                 /\ forall t, t ∈ seen -> is_Some (translations st0 !! t))) ->
              Spec.serving targetLang cache (seen ++ [title])
                (mkLoop (translations st0) (updatedCache st0) (batch st0 ++ [title])
                   (batchLength st0 + (String.length title + 2)) (sent st0))) as Hpush.
    { intros st0 (Hgrow & Hbatch & Hsent & Hsync & Hseen & Hdom) _.
      unfold Spec.serving. simpl.
      split; [done|]. split; [|split; [done|split; [done|split]]].
      - intros t Ht. apply elem_of_app in Ht as [Ht|Ht].
        + destruct (Hbatch t Ht). split; [done|]. apply elem_of_app. by left.
        + apply list_elem_of_singleton in Ht as ->. split; [done|].
          apply elem_of_app. right. by apply list_elem_of_singleton.
      - intros t Ht. apply elem_of_app in Ht as [Ht|Ht].
        + destruct (Hseen t Ht); [left; apply elem_of_app; by left|by right].
        + left. apply elem_of_app. by right.
      - intros t Ht. apply elem_of_app. left. by apply Hdom. }
    destruct ((maxLength <? batchLength st + String.length title + 2)
              && (0 <? length (batch st))).
    + destruct (translateBatch translateText targetLang (batch st) st) as [st1|sent1] eqn:Eb.
      * destruct (translateBatch_serving cache seen st st1 Hinv Eb)
          as (Hinv1 & Hall & Hsent1).
        apply IH.
        apply (Hpush (mkLoop (translations st1) (updatedCache st1) [] 0 (sent st1)));
          [|right; by split].
        destruct Hinv1 as (Hgrow & Hbatch & Hsent & Hsync & Hseen & Hdom).
        unfold Spec.serving. simpl.
        split; [done|]. split; [|split; [done|split; [done|split; [by auto|done]]]].
        intros t Ht. by apply elem_of_nil in Ht.
      * pose proof (translateBatch_sent (batch st) st) as Hs. rewrite Eb in Hs.
        simpl in Hs. subst sent1.
        destruct Hinv as (_ & Hbatch & Hsent & _).
        apply Forall_app. split; [done|]. constructor; [|done].
        intros t Ht. by apply Hbatch.
    + apply IH. apply Hpush; [done|by left].
Qed.

Lemma serving_start (cache : TranslationCache) :
  Spec.serving targetLang cache [] (mkLoop ∅ cache [] 0 []).
Proof.
  unfold Spec.serving. simpl.
  split; [done|]. split; [intros t Ht; by apply elem_of_nil in Ht|].
  split; [constructor|]. split; [intros t x Ht; by rewrite lookup_empty in Ht|].
  split; [intros t Ht; by apply elem_of_nil in Ht|].
  intros t [x Ht]. by rewrite lookup_empty in Ht.
Qed.

(** What a call that returned has established. *)
Lemma translateTitles_serving (titles : list string) (cache : TranslationCache)
    (st : Loop) :
  translateTitles translateText targetLang titles cache = Returned st ->
  Spec.serving targetLang cache titles st
  /\ forall t, t ∈ titles -> is_Some (translations st !! t).
Proof.
  unfold translateTitles.
  pose proof (forTitles_serving cache titles _ [] (serving_start cache)) as Hloop.
  destruct (forTitles translateText targetLang titles (mkLoop ∅ cache [] 0 []))
    as [st1|sent1]; [|done].
  simpl in Hloop. destruct (0 <? length (batch st1)) eqn:Ene.
  - intros Eb. destruct (translateBatch_serving cache titles st1 st Hloop Eb)
      as (Hinv & Hall & _). done.
  - intros [= <-]. split; [done|].
    destruct Hloop as (_ & _ & _ & _ & Hseen & _).
    intros t Ht. destruct (Hseen t Ht) as [Hb|]; [|done].
    destruct (batch st1); [by apply elem_of_nil in Hb|done].
Qed.

(** X12. No batch that [translateTitles] hands to the translation
    service has a title that the cache it was given answers in the
    target language, whether the call returns or throws, and also when
    titles repeat. *)
Theorem translateTitles_skips_cached (titles : list string) (cache : TranslationCache) :
  Forall (fun b => forall t, t ∈ b -> cached targetLang t cache = false)
    (batchesOf (translateTitles translateText targetLang titles cache)).
Proof.
  unfold translateTitles.
  pose proof (forTitles_serving cache titles _ [] (serving_start cache)) as Hloop.
  destruct (forTitles translateText targetLang titles (mkLoop ∅ cache [] 0 []))
    as [st1|sent1]; [|done].
  destruct Hloop as (_ & Hbatch & Hsent & _).
  destruct (0 <? length (batch st1)); [|done].
  rewrite translateBatch_sent. apply Forall_app. split; [done|].
  constructor; [|done]. intros t Ht. by apply Hbatch.
Qed.


(** A request that the cache answers in full goes through the loop
    without a batch. *)
Lemma forTitles_cached (titles : list string) :
  forall st,
  (forall t, t ∈ titles -> cached targetLang t (updatedCache st) = true) ->
  forTitles translateText targetLang titles st
  = Returned
      (mkLoop
         (fold_left
            (fun tr t => <[t := default ∅ (updatedCache st !! t) !!! targetLang]> tr)
            titles (translations st))
         (updatedCache st) (batch st) (batchLength st) (sent st)).
Proof.
  induction titles as [|title rest IH]; intros st Hall.
  - simpl. by destruct st.
  - cbn [forTitles fold_left]. rewrite Hall by left.
    rewrite IH; [done|]. intros t Ht. simpl. apply Hall. by right.
Qed.

Lemma fold_answers_lookup (g : string -> Text) (titles : list string) :
  forall (tr : gmap string Text) t,
  fold_left (fun tr t => <[t := g t]> tr) titles tr !! t
  = if decide (t ∈ titles) then Some (g t) else tr !! t.
Proof.
  induction titles as [|title rest IH]; intros tr t; [done|].
  cbn [fold_left]. rewrite IH.
  destruct (decide (t ∈ rest)) as [Hr|Hr].
  - rewrite decide_True; [done|by right].
  - destruct (decide (t = title)) as [->|Hne].
    + rewrite lookup_insert_eq. rewrite decide_True; [done|left].
    + rewrite lookup_insert_ne by done. rewrite decide_False; [done|].
      intros Hin. apply elem_of_cons in Hin as [|]; done.
Qed.

Lemma translateTitles_cached (titles : list string) (cache : TranslationCache) :
  (forall t, t ∈ titles -> cached targetLang t cache = true) ->
  translateTitles translateText targetLang titles cache
  = Returned
      (mkLoop
         (fold_left (fun tr t => <[t := default ∅ (cache !! t) !!! targetLang]> tr)
            titles ∅)
         cache [] 0 []).
Proof.
  intros Hall. unfold translateTitles. by rewrite forTitles_cached.
Qed.

(** X14. When the cache answers every title of the request,
    [translateTitles] returns without a single call of the translation
    service, with the cache as it was given, and with the cache entry of
    each title as its answer. *)
Theorem translateTitles_all_cached (titles : list string) (cache : TranslationCache) :
  (forall t, t ∈ titles -> cached targetLang t cache = true) ->
  exists translations,
    translateTitles translateText targetLang titles cache
    = Returned (mkLoop translations cache [] 0 [])
    /\ (forall t, t ∈ titles ->
          exists x, Spec.holds cache t targetLang x /\ translations !! t = Some x)
    /\ (forall t, t ∉ titles -> translations !! t = None).
Proof.
  intros Hall. eexists. split; [by apply translateTitles_cached|]. split.
  - intros t Ht. destruct (proj1 (cached_holds cache t) (Hall t Ht)) as [x Hx].
    exists x. split; [done|].
    rewrite (fold_answers_lookup (fun t => default ∅ (cache !! t) !!! targetLang)).
    rewrite decide_True by done. destruct Hx as (e & -> & Hl). simpl.
    by rewrite lookup_total_alt, Hl.
  - intros t Ht.
    rewrite (fold_answers_lookup (fun t => default ∅ (cache !! t) !!! targetLang)).
    by rewrite decide_False.
Qed.

(** X15. A call that returned can be replayed from the cache it
    returned: the same request then calls the translation service for
    nothing, leaves the cache as it is, and gives the same answers. *)
Theorem translateTitles_replay (titles : list string) (cache : TranslationCache)
    (st : Loop) :
  translateTitles translateText targetLang titles cache = Returned st ->
  translateTitles translateText targetLang titles (updatedCache st)
  = Returned (mkLoop (translations st) (updatedCache st) [] 0 []).
Proof.
  intros Hret. destruct (translateTitles_serving titles cache st Hret)
    as ((_ & _ & _ & Hsync & _ & Hdom) & Hall).
  rewrite translateTitles_cached.
  - f_equal. f_equal. apply map_eq. intros t.
    rewrite (fold_answers_lookup
               (fun t => default ∅ (updatedCache st !! t) !!! targetLang)).
    destruct (decide (t ∈ titles)) as [Ht|Ht].
    + destruct (Hall t Ht) as [x Hx]. rewrite Hx.
      destruct (Hsync t x Hx) as (e & -> & Hl). simpl.
      by rewrite lookup_total_alt, Hl.
    + symmetry. apply eq_None_not_Some. intros Hs. by apply Ht, Hdom.
  - intros t Ht. apply cached_holds. destruct (Hall t Ht) as [x Hx].
    exists x. by apply Hsync.
Qed.


End Serving.


Lemma translateTitles_all_cached_witness :
  exists translations,
    translateTitles Examples.echo "fr" ["About"; "About"]
      {["About" := {["fr" := Some "À propos"]}]}
    = Returned (mkLoop translations {["About" := {["fr" := Some "À propos"]}]} [] 0 []).
Proof.
  destruct (translateTitles_all_cached Examples.echo "fr" ["About"; "About"]
              {["About" := {["fr" := Some "À propos"]}]}) as (tr & H & _).
  - intros t Ht. apply elem_of_cons in Ht as [->|Ht]; [reflexivity|].
    apply elem_of_cons in Ht as [->|Ht]; [reflexivity|].
    by apply elem_of_nil in Ht.
  - by exists tr.
Defined.

Lemma translateTitles_replay_witness :
  exists st,
    translateTitles Examples.echo "fr" ["Home"; "About"; "News"]
      {["About" := {["fr" := Some "À propos"]}]}
    = Returned st
    /\ translateTitles Examples.echo "fr" ["Home"; "About"; "News"] (updatedCache st)
       = Returned (mkLoop (translations st) (updatedCache st) [] 0 []).
Proof.
  eexists. split; [vm_compute; reflexivity|].
  apply (translateTitles_replay Examples.echo "fr" ["Home"; "About"; "News"]
           {["About" := {["fr" := Some "À propos"]}]}).
  vm_compute. reflexivity.
Defined.


End ServerMore.

(** ** The [GET] handler of the translation endpoint *)

Module HandlerFacts.

Import JsFacts Server ServerMore.

Lemma titles_of_param (p : string) : (length (splitCommas "" p) =? 0) = false.
Proof.
  pose proof (splitCommas_nonempty p "") as Hne.
  by destruct (splitCommas "" p).
Qed.

(** X17. [GET] answers 400 exactly when the [titles] parameter is
    absent or the [targetLang] parameter is absent or empty; a [titles]
    parameter that is present, even empty, is let through.  Whenever the
    answer is an error, nothing is handed to [saveCache]. *)
Theorem GET_invalid_input (translateText : string -> string -> option string)
    (titlesParam targetLangParam : option string) (stored : option TranslationCache) :
  let reply := GET translateText titlesParam targetLangParam stored in
  ((exists error, reply.1 = Error 400 error)
   <-> titlesParam = None \/ targetLangParam = None \/ targetLangParam = Some "")
  /\ (forall status error, reply.1 = Error status error -> reply.2 = None).
Proof.
  unfold GET. destruct titlesParam as [p|]; simpl.
  - rewrite titles_of_param. simpl.
    destruct targetLangParam as [l|]; simpl.
    + destruct (String.eqb_spec l "") as [->|Hne]; simpl.
      * split; [|done]. split; [auto|]. intros _. by eexists.
      * destruct (translateTitles translateText l (splitCommas "" p) (loadCache stored));
          simpl; (split; [|done]).
        -- split; [by intros [? ?]|]. intros [?|[?|[= ?]]]; done.
        -- split; [by intros [? [=]]|]. intros [?|[?|[= ?]]]; done.
    + split; [|done]. split; [auto|]. intros _. by eexists.
  - split; [|done]. split; [auto|]. intros _. by eexists.
Qed.



End HandlerFacts.
